(** * quectodom: the DOM wrappers, the table maker and the cached file

    A shallow embedding of [quectodom.js].  The wrapper classes
    ([DOMWrapper], [ParentWrapper], [TextNodeWrapper], [ElementWrapper],
    [TableMaker]) mutate DOM nodes, which are shared objects: a node handed
    to [appendChild] is moved, not copied.  The DOM is therefore a store of
    nodes addressed by reference, and every method is a state-passing
    computation that may raise a JavaScript exception.  [CachedFile] reads
    the clock and awaits a request; it is modelled by the two halves of
    [get], before and after the [await]. *)

From Stdlib Require Import ZArith Ascii String.
From Stdlib Require Import Decimal DecimalString DecimalN DecimalPos DecimalZ.
From stdpp Require Import base option strings list gmap pretty.

Set Warnings "-register-all".

Open Scope string_scope.
Open Scope list_scope.
Open Scope nat_scope.

(** ** JavaScript values *)

(** A reference to a DOM node: its address in the store. *)
Abbreviation ref := nat (only parsing).

(** The wrapper objects are instances of [DOMWrapper]; all that the code
    reads of one is its [element] property. *)
Record DOMWrapper := Wrapper { element : ref }.

(** Numbers are IEEE doubles; the code only prints them and tests them for
    truth, so they are kept abstract. *)
Class JSNumber := {
  number : Type;
  number_toString : number → string;
  number_truthy : number → bool
}.

(** ** The DOM *)

Inductive nodeKind : Type :=
| TextNode (data : string)
| ElementNode (tagName : string).

Record node := Node {
  kind : nodeKind;
  classList : list string;
  childNodes : list ref
}.

(** The store holds every node ever created; a node's address is its index
    and new nodes go to the end. *)
Abbreviation store := (list node) (only parsing).

(** The exceptions of JavaScript and of the DOM that the code can meet;
    [OutOfFuel] is none of them: it marks a loop of the model that was
    given too few turns, which the theorems rule out. *)
Inductive exn : Type :=
| TypeError
| HierarchyRequestError
| NotFoundError
| InvalidCharacterError
| SyntaxError
| OutOfFuel.

Inductive result (A : Type) : Type :=
| Ok (a : A)
| Err (e : exn).
Arguments Ok {A} a.
Arguments Err {A} e.

(** A computation on the store that returns or throws. *)
Definition M (A : Type) : Type := store → result (A * store).

Definition ret {A} (a : A) : M A := λ s, Ok (a, s).

Definition bind {A B} (m : M A) (k : A → M B) : M B :=
  λ s, match m s with
       | Ok (a, s') => k a s'
       | Err e => Err e
       end.

Definition throw {A} (e : exn) : M A := λ _, Err e.

Notation "x <- m ;; k" := (bind m (λ x, k))
  (at level 100, m at next level, right associativity).
Notation "m ;; k" := (bind m (λ _, k))
  (at level 100, right associativity).

(** [for (const x of xs) body]. *)
Fixpoint for_of {A} (xs : list A) (body : A → M unit) : M unit :=
  match xs with
  | [] => ret tt
  | x :: xs' => body x ;; for_of xs' body
  end.

Definition is_element (n : node) : bool :=
  match kind n with ElementNode _ => true | TextNode _ => false end.

Definition set_childNodes (cs : list ref) (n : node) : node :=
  Node (kind n) (classList n) cs.

Definition set_classList (cl : list string) (n : node) : node :=
  Node (kind n) cl (childNodes n).

(** [document.createTextNode(data)]. *)
Definition createTextNode (data : string) : M ref :=
  λ s, Ok (length s, s ++ [Node (TextNode data) [] []]).

(** [document.createElement(tag)]. *)
Definition createElement (tag : string) : M ref :=
  λ s, Ok (length s, s ++ [Node (ElementNode tag) [] []]).

(** The child nodes of [r] (none for a reference that is no node). *)
Definition childNodes_of (s : store) (r : ref) : list ref :=
  match s !! r with Some n => childNodes n | None => [] end.

Definition classList_of (s : store) (r : ref) : list string :=
  match s !! r with Some n => classList n | None => [] end.

Definition is_element_at (s : store) (r : ref) : bool :=
  match s !! r with Some n => is_element n | None => false end.

(** [e.children]: the child nodes that are elements. *)
Definition children (s : store) (n : node) : list ref :=
  filter (λ c, is_element_at s c = true) (childNodes n).

(** [x.parentNode]: the node that lists [x] among its child nodes. *)
Fixpoint find_parent (x : ref) (s : list node) (i : ref) : option ref :=
  match s with
  | [] => None
  | n :: s' =>
      if bool_decide (x ∈ childNodes n) then Some i
      else find_parent x s' (S i)
  end.

Definition parentNode (s : store) (x : ref) : option ref :=
  find_parent x s 0.

(** The inclusive ancestors of [x], from [x] up to its root.  The tree is
    finite, so as many steps as there are nodes reach the root; [None]
    stands for a store that is no forest. *)
Fixpoint inclusive_ancestors (fuel : nat) (s : store) (x : ref)
  : option (list ref) :=
  match parentNode s x with
  | None => Some [x]
  | Some p =>
      match fuel with
      | 0 => None
      | S fuel' => cons x <$> inclusive_ancestors fuel' s p
      end
  end.

(** Removing [c] from wherever it hangs. *)
Definition detach (c : ref) (s : store) : store :=
  (λ n, set_childNodes (filter (λ x, x ≠ c) (childNodes n)) n) <$> s.

Definition push_child (c : ref) (n : node) : node :=
  set_childNodes (childNodes n ++ [c]) n.

(** [p.appendChild(c)] on nodes: [c] must not be [p] or an ancestor of [p];
    it leaves its old parent and becomes the last child of [p]. *)
Definition appendChild (p c : ref) : M unit :=
  λ s,
    match s !! p, s !! c with
    | Some pn, Some _ =>
        if is_element pn then
          match inclusive_ancestors (length s) s p with
          | None => Err OutOfFuel
          | Some anc =>
              if bool_decide (c ∈ anc) then Err HierarchyRequestError
              else Ok (tt, alter (push_child c) p (detach c s))
          end
        else Err HierarchyRequestError
    | _, _ => Err TypeError
    end.

(** [p.removeChild(c)]. *)
Definition removeChild (p c : ref) : M unit :=
  λ s,
    match s !! p with
    | Some pn =>
        if bool_decide (c ∈ childNodes pn) then
          Ok (tt, alter (set_childNodes
                           (filter (λ x, x ≠ c) (childNodes pn))) p s)
        else Err NotFoundError
    | None => Err TypeError
    end.

Definition is_ascii_whitespace (c : ascii) : bool :=
  let n := nat_of_ascii c in
  (n =? 9)%nat || (n =? 10)%nat || (n =? 12)%nat || (n =? 13)%nat
  || (n =? 32)%nat.

Fixpoint has_whitespace (s : string) : bool :=
  match s with
  | EmptyString => false
  | String c s' => is_ascii_whitespace c || has_whitespace s'
  end.

(** [e.classList.add(token)]: text nodes have no class list; the empty
    token and tokens with white space are refused; a token is listed
    once. *)
Definition classList_add (e : ref) (token : string) : M unit :=
  λ s,
    match s !! e with
    | Some n =>
        if is_element n then
          if String.eqb token "" then Err SyntaxError
          else if has_whitespace token then Err InvalidCharacterError
          else if bool_decide (token ∈ classList n) then Ok (tt, s)
          else Ok (tt, alter (set_classList (classList n ++ [token])) e s)
        else Err TypeError
    | None => Err TypeError
    end.

Section quectodom.
Context {num : JSNumber}.

(** The values the library is handed: primitives, arrays, plain objects
    (their own properties, each listed once, with [Object.prototype] for
    prototype) and wrapper instances.  Functions, symbols and raw DOM
    nodes are outside the model. *)
Inductive value : Type :=
| VUndefined
| VNull
| VBool (b : bool)
| VNumber (n : number)
| VString (s : string)
| VArray (items : list value)
| VObject (props : list (string * value))
| VWrapper (w : DOMWrapper).

(** [typeof v]. *)
Definition typeof (v : value) : string :=
  match v with
  | VUndefined => "undefined"
  | VBool _ => "boolean"
  | VNumber _ => "number"
  | VString _ => "string"
  | VNull | VArray _ | VObject _ | VWrapper _ => "object"
  end.

(** [v == null]: true of [null] and [undefined] only. *)
Definition eq_null (v : value) : bool :=
  match v with VUndefined | VNull => true | _ => false end.

(** [v instanceof DOMWrapper]. *)
Definition instanceof_DOMWrapper (v : value) : bool :=
  match v with VWrapper _ => true | _ => false end.

(** The truth value of [v] in a condition. *)
Definition truthy (v : value) : bool :=
  match v with
  | VUndefined | VNull => false
  | VBool b => b
  | VNumber n => number_truthy n
  | VString s => negb (String.eqb s "")
  | VArray _ | VObject _ | VWrapper _ => true
  end.

(** The string conversion of [v]. *)
Fixpoint toString (v : value) : string :=
  match v with
  | VUndefined => "undefined"
  | VNull => "null"
  | VBool b => if b then "true" else "false"
  | VNumber n => number_toString n
  | VString s => s
  | VArray items =>
      String.concat ","
        (map (λ x, match x with
                   | VUndefined | VNull => ""
                   | _ => toString x
                   end) items)
  | VObject _ | VWrapper _ => "[object Object]"
  end.

(** A plain object: its own properties. *)
Abbreviation object := (list (string * value)) (only parsing).

Fixpoint own_property (key : string) (o : object) : option value :=
  match o with
  | [] => None
  | (k, v) :: o' => if String.eqb k key then Some v else own_property key o'
  end.

(** [o.hasOwnProperty(key)].  The method is looked up on [o] itself: an
    own property of that name hides the method of [Object.prototype], and
    as no value of the model is a function, calling it throws a
    [TypeError]. *)
Definition hasOwnProperty (o : object) (key : string) : M bool :=
  match own_property "hasOwnProperty" o with
  | Some _ => throw TypeError
  | None =>
      ret (match own_property key o with Some _ => true | None => false end)
  end.

(** [v.key] for a key that is neither an index nor [length]: a plain
    object answers with its own property, an array has none. *)
Definition get_property (v : value) (key : string) : value :=
  match v with
  | VObject props => default VUndefined (own_property key props)
  | _ => VUndefined
  end.

(** The characters of a string, one string each. *)
Fixpoint characters (s : string) : list value :=
  match s with
  | EmptyString => []
  | String c s' => VString (String c EmptyString) :: characters s'
  end.

(** [...v] in an argument list: arrays and strings are iterable, nothing
    else in the model is. *)
Definition spread (v : value) : option (list value) :=
  match v with
  | VArray items => Some items
  | VString s => Some (characters s)
  | _ => None
  end.

(** ** DOMWrapper *)

(** [addClasses(...classes)]. *)
Definition add_class (this : DOMWrapper) (cls : value) : M unit :=
  if truthy cls then classList_add (element this) (toString cls)
  else ret tt.

Definition addClasses (this : DOMWrapper) (classes : list value)
  : M DOMWrapper :=
  for_of classes (add_class this) ;;
  ret this.

(** ** TextNodeWrapper and ElementWrapper *)

(** [new TextNodeWrapper(text)]; [text] defaults to [null]. *)
Definition new_TextNodeWrapper (text : value) : M DOMWrapper :=
  e <- createTextNode (if truthy text then toString text else "") ;;
  ret (Wrapper e).

(** [new ElementWrapper(tag)]. *)
Definition new_ElementWrapper (tag : string) : M DOMWrapper :=
  e <- createElement tag ;;
  ret (Wrapper e).

(** ** ParentWrapper *)

(** The loop of [clear]: while there is an element child, remove the first
    one.  [fuel] bounds the number of turns. *)
Fixpoint clear_loop (fuel : nat) (this : DOMWrapper) : M unit :=
  λ s,
    match s !! element this with
    | None => Err TypeError
    | Some n =>
        match kind n with
        | TextNode _ => Err TypeError
        | ElementNode _ =>
            match children s n with
            | [] => Ok (tt, s)
            | c :: _ =>
                match fuel with
                | 0 => Err OutOfFuel
                | S fuel' =>
                    (removeChild (element this) c ;; clear_loop fuel' this) s
                end
            end
        end
    end.

(** [clear()]: every turn removes a child node, so the number of child
    nodes bounds the turns. *)
Definition clear (this : DOMWrapper) : M DOMWrapper :=
  λ s, (clear_loop (length (childNodes_of s (element this))) this ;;
        ret this) s.

(** The first half of the body of [append]'s loop: a missing child becomes
    a blank text node, a child that is no object a text node of its
    string. *)
Definition resolve_child (child : value) : M value :=
  if eq_null child then
    w <- new_TextNodeWrapper VNull ;; ret (VWrapper w)
  else if negb (String.eqb (typeof child) "object") then
    w <- new_TextNodeWrapper (VString (toString child)) ;; ret (VWrapper w)
  else ret child.

(** [child.element] as a node: only a wrapper has one. *)
Definition element_of (child : value) : M ref :=
  match child with
  | VWrapper w => ret (element w)
  | _ => throw TypeError
  end.

(** The body of [append]'s loop. *)
Definition append_child (this : DOMWrapper) (child : value) : M unit :=
  child' <- resolve_child child ;;
  e <- element_of child' ;;
  appendChild (element this) e.

(** [append(...children)]. *)
Definition append (this : DOMWrapper) (children : list value)
  : M DOMWrapper :=
  for_of children (append_child this) ;;
  ret this.

(** ** TableMaker *)

(** An argument of the constructor: [{name, label}]. *)
Record heading_spec := HeadingSpec {
  spec_name : string;
  spec_label : value
}.

(** A stored heading: [{name, pos, label, th}]. *)
Record heading := Heading {
  name : string;
  pos : nat;
  label : DOMWrapper;
  th : DOMWrapper
}.

(** A [TableMaker] is a [DOMWrapper] on its table element, with the
    properties its constructor sets; [headings_by_name] is an object used
    as a map from the names to the headings. *)
Record TableMaker := Table {
  as_DOMWrapper : DOMWrapper;
  table : DOMWrapper;
  thead : DOMWrapper;
  tbody : DOMWrapper;
  headings_by_name : gmap string heading;
  headings : list heading
}.

(** The loop of the constructor, from index [i] on; it fills
    [headings_by_name] and [headings] and the header row. *)
Fixpoint headings_loop (headrow : DOMWrapper) (specs : list heading_spec)
    (i : nat) (by_name : gmap string heading) (hs : list heading)
  : M (gmap string heading * list heading) :=
  match specs with
  | [] => ret (by_name, hs)
  | spec :: specs' =>
      th_label <- new_TextNodeWrapper (spec_label spec) ;;
      th0 <- new_ElementWrapper "th" ;;
      th <- append th0 [VWrapper th_label] ;;
      let h := Heading (spec_name spec) i th_label th in
      append headrow [VWrapper th] ;;
      headings_loop headrow specs' (S i)
        (<[spec_name spec := h]> by_name) (hs ++ [h])
  end.

(** [new TableMaker(...headings)]. *)
Definition new_TableMaker (specs : list heading_spec) : M TableMaker :=
  table <- new_ElementWrapper "table" ;;
  thead <- new_ElementWrapper "thead" ;;
  tbody <- new_ElementWrapper "tbody" ;;
  headrow <- new_ElementWrapper "tr" ;;
  filled <- headings_loop headrow specs 0 ∅ [] ;;
  append thead [VWrapper headrow] ;;
  append table [VWrapper thead; VWrapper tbody] ;;
  ret (Table (Wrapper (element table)) table thead tbody
             (fst filled) (snd filled)).

(** The test that sends a cell value to the decorated branch. *)
Definition is_decorated (cellvalue : value) : bool :=
  negb (eq_null cellvalue)
  && String.eqb (typeof cellvalue) "object"
  && negb (instanceof_DOMWrapper cellvalue).

(** The decorated branch: the classes, if any, then the content. *)
Definition fill_decorated (cell : DOMWrapper) (cellvalue : value) : M unit :=
  (if truthy (get_property cellvalue "classes") then
     match spread (get_property cellvalue "classes") with
     | Some classes => addClasses cell classes ;; ret tt
     | None => throw TypeError
     end
   else ret tt) ;;
  append cell [get_property cellvalue "content"] ;;
  ret tt.

(** What [appendRows] puts into the new cell of column [col]. *)
Definition fill_cell (cell : DOMWrapper) (row : object) (col : heading)
  : M unit :=
  has <- hasOwnProperty row (name col) ;;
  if has then
    let cellvalue := default VUndefined (own_property (name col) row) in
    if is_decorated cellvalue then fill_decorated cell cellvalue
    else append cell [cellvalue] ;; ret tt
  else append cell [VString ""] ;; ret tt.

(** The body of the loop over the columns. *)
Definition append_cell (tr : DOMWrapper) (row : object) (col : heading)
  : M unit :=
  cell <- new_ElementWrapper "td" ;;
  fill_cell cell row col ;;
  append tr [VWrapper cell] ;;
  ret tt.

(** The body of the loop over the rows. *)
Definition append_row (this : TableMaker) (row : object) : M unit :=
  tr <- new_ElementWrapper "tr" ;;
  for_of (headings this) (append_cell tr row) ;;
  append (tbody this) [VWrapper tr] ;;
  ret tt.

(** [appendRows(...rows)]. *)
Definition appendRows (this : TableMaker) (rows : list object)
  : M TableMaker :=
  for_of rows (append_row this) ;;
  ret this.

(** ** CachedFile *)

(** Times are the milliseconds of [Date.now()]. *)
Record CachedFile := Cached {
  _method : string;
  _uri : string;
  _cache_duration : Z;
  _expiry : Z;
  _data : value
}.

(** [new CachedFile(method, uri, cache_duration)]. *)
Definition new_CachedFile (method uri : string) (cache_duration : Z)
  : CachedFile :=
  Cached method uri cache_duration 0 VNull.

Definition default_cache_duration : Z := 86400000.

(** How a promise settles. *)
Inductive settled : Type :=
| Fulfilled (v : value)
| Rejected (reason : value).

(** [get] up to its [await]: either it returns the cached data at once,
    or it calls [requestJSON] and waits. *)
Inductive get_step : Type :=
| Return (data : value)
| Await_requestJSON (method uri : string).

Definition get_begin (this : CachedFile) (force : bool) (now : Z)
  : get_step :=
  if force || (_expiry this <? now)%Z
  then Await_requestJSON (_method this) (_uri this)
  else Return (_data this).

(** [get] from its [await] on, on the object as it is by then: a rejected
    request throws out of [get]; a fulfilled one is stored with the new
    expiry, and the stored data is returned. *)
Definition get_resume (this : CachedFile) (response : settled) (now : Z)
  : settled * CachedFile :=
  match response with
  | Rejected reason => (Rejected reason, this)
  | Fulfilled data =>
      let this' :=
        Cached (_method this) (_uri this) (_cache_duration this)
               (now + _cache_duration this) data in
      (Fulfilled (_data this'), this')
  end.

(** A whole call of [get] that nothing interleaves with: [now] is the
    clock at the call, [response] and [later] are the outcome of the
    request and the clock when it arrives.  The boolean tells whether a
    request was made. *)
Definition get (this : CachedFile) (force : bool) (now : Z)
    (response : settled) (later : Z) : bool * settled * CachedFile :=
  match get_begin this force now with
  | Return data => (false, Fulfilled data, this)
  | Await_requestJSON _ _ =>
      let '(r, this') := get_resume this response later in (true, r, this')
  end.

End quectodom.

Abbreviation object := (list (string * value)) (only parsing).

(** * The rest of the library *)

(** ** More of the DOM *)

(** [e.classList.remove(token)]: the tokens are checked as by
    [classList.add]; a token that is not listed is no error. *)
Definition classList_remove (e : ref) (token : string) : M unit :=
  λ s,
    match s !! e with
    | Some n =>
        if is_element n then
          if String.eqb token "" then Err SyntaxError
          else if has_whitespace token then Err InvalidCharacterError
          else Ok (tt, alter (set_classList
                                (filter (λ t, t ≠ token) (classList n))) e s)
        else Err TypeError
    | None => Err TypeError
    end.

(** [n.textContent], read: the data of a text node; for an element the
    data of the text nodes below it, in tree order.  [fuel] bounds the
    depth. *)
Fixpoint textContent (fuel : nat) (s : store) (r : ref) : option string :=
  match s !! r with
  | None => None
  | Some n =>
      match kind n with
      | TextNode data => Some data
      | ElementNode _ =>
          match fuel with
          | 0 => None
          | S fuel' =>
              String.concat "" <$> mapM (textContent fuel' s) (childNodes n)
          end
      end
  end.


Section wrappers.
Context {num : JSNumber}.

(** ** DOMWrapper, continued *)

(** [rmClasses(...classes)]. *)
Definition rm_class (this : DOMWrapper) (cls : value) : M unit :=
  if truthy cls then classList_remove (element this) (toString cls)
  else ret tt.

Definition rmClasses (this : DOMWrapper) (classes : list value)
  : M DOMWrapper :=
  for_of classes (rm_class this) ;;
  ret this.

(** ** TextNodeWrapper, continued *)

(** The getter of [text]. *)
Definition text (this : DOMWrapper) : M string :=
  λ s,
    match s !! element this with
    | None => Err TypeError
    | Some _ =>
        match textContent (length s) s (element this) with
        | Some data => Ok (data, s)
        | None => Err OutOfFuel
        end
    end.



End wrappers.

(** ** The page URI *)

(** [s.substring(start)]: a start below 0 counts as 0, one beyond the end
    as the end. *)
Definition substring_from (start : Z) (s : string) : string :=
  String.substring (Z.to_nat start) (String.length s - Z.to_nat start) s.

(** [s.split(sep)] for a separator of one character. *)
Fixpoint split (sep : ascii) (s : string) : list string :=
  match s with
  | EmptyString => [EmptyString]
  | String c s' =>
      if Ascii.eqb c sep then EmptyString :: split sep s'
      else match split sep s' with
           | [] => [String c EmptyString]
           | part :: parts => String c part :: parts
           end
  end.

(** [getPageURI()], where [location] is [window.location.toString()]. *)
Definition getPageURI (location : string) : string :=
  let uri := location in
  if negb (String.eqb
             (substring_from (Z.of_nat (String.length uri) - 1) uri) "/")
  then
    let parts := split "/" uri in
    let parts := <[length parts - 1 := ""]> parts in
    String.concat "/" parts
  else uri.

(** ** Formatting of integers *)

(** The numbers of this part are integers [val] with
    [|val| <= Number.MAX_SAFE_INTEGER], whose [toString()] is their
    decimal numeral. *)
Definition toString_integer (val : Z) : string :=
  match val with
  | Z0 => "0"
  | Zpos p => NilZero.string_of_uint (Pos.to_uint p)
  | Zneg p => ("-" ++ NilZero.string_of_uint (Pos.to_uint p))%string
  end.

(** [getSignOf(val, minus, zero, plus)]. *)
Definition getSignOf (val : Z) (minus zero plus : string) : string :=
  if (val <? 0)%Z then minus
  else if (val =? 0)%Z then zero
  else plus.

(** The loop of [formatInt]: a zero in front while the string is shorter
    than [digits]; [None] when [fuel] turns were too few. *)
Fixpoint pad_loop (fuel : nat) (str : string) (digits : Z) : option string :=
  if (Z.of_nat (String.length str) <? digits)%Z then
    match fuel with
    | 0 => None
    | S fuel' => pad_loop fuel' ("0" ++ str)%string digits
    end
  else Some str.

(** [formatInt(val, digits, minus, zero, plus)]; every turn of the loop
    makes the string longer, so [digits] turns are enough. *)
Definition formatInt (val digits : Z) (minus zero plus : string)
  : option string :=
  let sign := getSignOf val minus zero plus in
  str ← pad_loop (Z.to_nat digits) (toString_integer (Z.abs val)) digits;
  Some (sign ++ str)%string.

(** [formatTime(dstr)], where [hours] and [minutes] are what [getHours()]
    and [getMinutes()] give for the date that [dstr] denotes. *)
Definition formatTime (hours minutes : Z) : option string :=
  h ← formatInt hours 2 "-" "" "";
  m ← formatInt minutes 2 "-" "" "";
  Some (h ++ ":" ++ m)%string.

(** * Specification *)

(** A store is closed when every child reference points into it. *)
Definition closed (s : store) : Prop :=
  ∀ x n c, s !! x = Some n → c ∈ childNodes n → c < length s.

(** A store is a forest when its parent pointers descend along a rank, so
    that no node is its own ancestor. *)
Definition forest (s : store) : Prop :=
  ∃ rank : ref → nat, ∀ x p, parentNode s x = Some p → rank p < rank x.

(** What is left of a node once the nodes [W] have been moved away. *)
Definition unmoved (W : list ref) (n : node) : node :=
  set_childNodes (filter (λ c, c ∉ W) (childNodes n)) n.

(** [step W P s s']: the store [s'] comes from [s] by allocating nodes,
    moving the nodes [W] and changing the nodes [P]; every other node keeps
    its kind, its classes and the children that were not moved, and the
    nodes that were not moved keep their parent. *)
Record step (W P : list ref) (s s' : store) : Prop := Step {
  step_length : length s ≤ length s';
  step_kind : ∀ x n, s !! x = Some n →
    ∃ n', s' !! x = Some n' ∧ kind n' = kind n;
  step_frame : ∀ x n, s !! x = Some n → x ∉ P →
    s' !! x = Some (unmoved W n);
  step_parent : ∀ y, y < length s → y ∉ W →
    parentNode s' y = parentNode s y
}.

(** The store after [c] has become the last child of [p]. *)

Definition moved_to (p c : nat) (s : list node) : list node :=
  alter (push_child c) p (detach c s).

(** What is seen of a subtree: the nodes made since the store had [old]
    nodes are unfolded, down to [depth] elements; the nodes that were
    there before, and what lies deeper, are shown by reference. *)
Inductive shape : Type :=
| SText (data : string)
| SRef (r : nat)
| SElement (tagName : string) (classes : list string) (children : list shape).

Fixpoint shape_of (old depth : nat) (s : list node) (r : nat) : shape :=
  if r <? old then SRef r
  else match s !! r with
       | None => SRef r
       | Some n =>
           match kind n with
           | TextNode data => SText data
           | ElementNode tag =>
               match depth with
               | 0 => SRef r
               | S depth' =>
                   SElement tag (classList n)
                     (map (shape_of old depth' s) (childNodes n))
               end
           end
       end.

(** A child is kept unless it is a reference to one of the nodes [W]. *)
Definition kept (W : list nat) (sh : shape) : bool :=
  match sh with
  | SRef r => bool_decide (r ∉ W)
  | _ => true
  end.

(** The shape after the nodes [W] have been moved elsewhere. *)
Fixpoint steal (W : list nat) (sh : shape) : shape :=
  match sh with
  | SElement tag cl ch =>
      SElement tag cl (filter (λ c, kept W c = true) (map (steal W) ch))
  | _ => sh
  end.

(** The nodes [W] that a step moves are old ones or roots. *)
Definition movable (old : nat) (s : list node) (W : list nat) : Prop :=
  ∀ w, w ∈ W → w < old ∨ parentNode s w = None.

(** The strings of [ts], each at the place where it comes first. *)
Fixpoint first_occurrences (ts : list string) : list string :=
  match ts with
  | [] => []
  | t :: ts' => t :: filter (λ x, x ≠ t) (first_occurrences ts')
  end.

(** Whether the character [c] occurs in [s]. *)
Fixpoint contains (c : ascii) (s : string) : bool :=
  match s with
  | EmptyString => false
  | String c' s' => Ascii.eqb c' c || contains c s'
  end.

(** The part of [s] up to its last slash, the slash included; nothing
    when [s] has no slash. *)
Fixpoint up_to_last_slash (s : string) : string :=
  match s with
  | EmptyString => EmptyString
  | String c s' =>
      if contains "/" s then String c (up_to_last_slash s') else EmptyString
  end.

(** [Number.MAX_SAFE_INTEGER]. *)
Definition MAX_SAFE_INTEGER : Z := 9007199254740991.

(** A string of [n] zeros. *)
Fixpoint zeros (n : nat) : string :=
  match n with
  | 0 => EmptyString
  | S n' => String "0" (zeros n')
  end.

(** Reading a decimal numeral, with or without a minus sign and leading
    zeros. *)
Definition read_integer (s : string) : option Z :=
  Z.of_int <$> NilZero.int_of_string s.

Section specification.
Context {num : JSNumber}.

(** The text that [append] makes of a child that is no object. *)
Definition text_of (v : value) : string :=
  if eq_null v then "" else toString v.

(** The node that [append] moves when it is handed [v]. *)
Definition moved (v : value) : list nat :=
  match v with VWrapper w => [element w] | _ => [] end.

(** The children that [append] can place under a node whose inclusive
    ancestors are [anc]: anything that is no object, and a wrapper on a
    node of the store that is none of [anc]. *)
Definition content_ok (bound : nat) (anc : list nat) (v : value) : bool :=
  match v with
  | VWrapper w =>
      bool_decide (element w < bound) && bool_decide (element w ∉ anc)
  | VArray _ | VObject _ => false
  | _ => true
  end.

(** Where [append] has put [v]: the wrapper's node, or a new text node. *)
Definition placed (s s' : list node) (v : value) (c : nat) : Prop :=
  match v with
  | VWrapper w => c = element w ∧ length s' = length s
  | _ => c = length s ∧ length s' = S (length s)
         ∧ s' !! c = Some (Node (TextNode (text_of v)) [] [])
  end.

(** Making [c] the last of the children [cs]. *)
Definition place (cs : list nat) (c : nat) : list nat :=
  filter (λ x, x ≠ c) cs ++ [c].

(** The node that stands for the argument [v] of [append] afterwards. *)
Definition resolved (s s' : list node) (v : value) (c : nat) : Prop :=
  match v with
  | VWrapper w => c = element w
  | _ => length s ≤ c
         ∧ s' !! c = Some (Node (TextNode (text_of v)) [] [])
  end.

(** The nodes that stand for the arguments of [append] on a document of
    [base] nodes: a wrapper's own node, and for every other argument a
    new node; the new nodes get the next addresses, in the order of the
    arguments. *)
Fixpoint resolved_nodes (base : nat) (vs : list value) : list nat :=
  match vs with
  | [] => []
  | VWrapper w :: vs' => element w :: resolved_nodes base vs'
  | _ :: vs' => base :: resolved_nodes (S base) vs'
  end.

(** The class list after [classList.add]. *)
Definition add_token (cl : list string) (token : string) : list string :=
  if bool_decide (token ∈ cl) then cl else cl ++ [token].

(** The tokens that [addClasses] hands to [classList.add]. *)
Definition tokens_of (classes : list value) : list string :=
  toString <$> filter (λ cls, truthy cls = true) classes.

(** A class that [addClasses] can add or skips. *)
Definition token_ok (cls : value) : bool :=
  if truthy cls
  then negb (String.eqb (toString cls) "")
       && negb (has_whitespace (toString cls))
  else true.

(** What [appendRows] appends to the cell of a row whose own property for
    the column is [o]. *)
Definition cell_content (o : option value) : value :=
  match o with
  | None => VString ""
  | Some v => if is_decorated v then get_property v "content" else v
  end.

(** The classes it passes to [addClasses]. *)
Definition cell_classes (o : option value) : list value :=
  match o with
  | None => []
  | Some v =>
      if is_decorated v && truthy (get_property v "classes")
      then default [] (spread (get_property v "classes"))
      else []
  end.

Definition classes_ok (c : value) : bool :=
  if truthy c then
    match spread c with
    | Some cs => forallb token_ok cs
    | None => false
    end
  else true.

(** The cell values that [appendRows] renders without an exception, in a
    table whose body has the inclusive ancestors [anc]: the classes of a
    decorated value are iterable and are tokens, and the content is no
    plain object and no wrapper on an ancestor of the body. *)
Definition cell_ok (old : nat) (anc : list nat) (o : option value) : bool :=
  match o with
  | None => true
  | Some v =>
      if is_decorated v
      then classes_ok (get_property v "classes")
           && content_ok old anc (get_property v "content")
      else content_ok old anc v
  end.

Definition content_shape (v : value) : shape :=
  match v with
  | VWrapper w => SRef (element w)
  | _ => SText (text_of v)
  end.

Definition expected_cell (o : option value) : shape :=
  SElement "td" (foldl add_token [] (tokens_of (cell_classes o)))
           [content_shape (cell_content o)].

Definition spliced_cell (o : option value) : list nat :=
  moved (cell_content o).

(** The own properties of [row] for the columns, in the columns' order. *)
Definition row_cells (hs : list heading) (row : object)
  : list (option value) :=
  map (λ h, own_property (name h) row) hs.

Fixpoint expected_cells (os : list (option value)) : list shape :=
  match os with
  | [] => []
  | o :: os' =>
      steal (os' ≫= spliced_cell) (expected_cell o) :: expected_cells os'
  end.

Definition spliced_row (hs : list heading) (row : object) : list nat :=
  row_cells hs row ≫= spliced_cell.

(** A record that leaves [hasOwnProperty] to [Object.prototype]: it has
    no own property of that name. *)
Definition plain_record (row : object) : bool :=
  match own_property "hasOwnProperty" row with
  | Some _ => false
  | None => true
  end.

(** The records that [appendRows] renders without an exception: the call
    of [hasOwnProperty] finds the method, and every cell value can be
    rendered. *)
Definition row_ok (old : nat) (anc : list nat) (hs : list heading)
    (row : object) : bool :=
  plain_record row && forallb (cell_ok old anc) (row_cells hs row).

(** The rows that [appendRows] adds for [rows]: every row has a cell for
    every column, and a node that a later cell takes leaves the earlier
    one. *)
Fixpoint expected_rows (hs : list heading) (rows : list object)
  : list shape :=
  match rows with
  | [] => []
  | row :: rows' =>
      steal (rows' ≫= spliced_row hs)
            (SElement "tr" [] (expected_cells (row_cells hs row)))
      :: expected_rows hs rows'
  end.

(** The first half of the decorated branch of [appendRows]. *)
Definition set_classes (cell : DOMWrapper) (o : option value) : M unit :=
  match o with
  | None => ret tt
  | Some v =>
      if is_decorated v then
        if truthy (get_property v "classes") then
          match spread (get_property v "classes") with
          | Some classes => addClasses cell classes ;; ret tt
          | None => throw TypeError
          end
        else ret tt
      else ret tt
  end.

(** The headings that the constructor's loop stores, from index [i] on,
    when the next free address is [base]: each heading takes a text node
    and a [th] element. *)
Fixpoint made_headings (specs : list heading_spec) (i base : nat)
  : list heading :=
  match specs with
  | [] => []
  | spec :: specs' =>
      Heading (spec_name spec) i (Wrapper base) (Wrapper (S base))
      :: made_headings specs' (S i) (S (S base))
  end.

Definition index_heading (m : gmap string heading) (h : heading)
  : gmap string heading :=
  <[name h := h]> m.

(** The nodes that the cells behind column [j] of the row [row], and the
    rows behind row [i], take for their own. *)
Definition taken_later (hs : list heading) (rows : list object)
    (i : nat) (row : object) (j : nat) : list nat :=
  (drop (S j) (row_cells hs row) ≫= spliced_cell)
  ++ (drop (S i) rows ≫= spliced_row hs).






End specification.

(** * Examples *)

(** Integers as numbers, for the examples. *)
#[global] Instance Z_number : JSNumber := {|
  number := Z;
  number_toString := pretty;
  number_truthy := λ z, negb (Z.eqb z 0)
|}.

Definition example_specs : list heading_spec :=
  [HeadingSpec "t" (VString "Time"); HeadingSpec "v" (VString "Value")].

Definition example_headings : list heading :=
  [Heading "t" 0 (Wrapper 4) (Wrapper 5);
   Heading "v" 1 (Wrapper 6) (Wrapper 7)].

(** The table that [new TableMaker({name: "t", label: "Time"},
    {name: "v", label: "Value"})] makes in an empty document. *)
Definition example_table : TableMaker :=
  Table (Wrapper 0) (Wrapper 0) (Wrapper 1) (Wrapper 2)
        (foldl index_heading ∅ example_headings) example_headings.

Definition example_store : list node :=
  [Node (ElementNode "table") [] [1; 2];
   Node (ElementNode "thead") [] [3];
   Node (ElementNode "tbody") [] [];
   Node (ElementNode "tr") [] [5; 7];
   Node (TextNode "Time") [] [];
   Node (ElementNode "th") [] [4];
   Node (TextNode "Value") [] [];
   Node (ElementNode "th") [] [6]].

(** The rows of the scenario [appendRows({t: "09:00"}, {v: 42},
    {t: "10:00", v: {classes: ["hot"], content: "99"}})]. *)
Definition example_rows : list object :=
  [ [("t", VString "09:00")];
    [("v", VNumber 42%Z)];
    [("t", VString "10:00");
     ("v", VObject [("classes", VArray [VString "hot"]);
                    ("content", VString "99")])] ].

(** The document after the rows of the scenario have been appended. *)
Definition example_store_rows : list node :=
  [Node (ElementNode "table") [] [1; 2];
   Node (ElementNode "thead") [] [3];
   Node (ElementNode "tbody") [] [8; 13; 18];
   Node (ElementNode "tr") [] [5; 7];
   Node (TextNode "Time") [] [];
   Node (ElementNode "th") [] [4];
   Node (TextNode "Value") [] [];
   Node (ElementNode "th") [] [6];
   Node (ElementNode "tr") [] [9; 11];
   Node (ElementNode "td") [] [10];
   Node (TextNode "09:00") [] [];
   Node (ElementNode "td") [] [12];
   Node (TextNode "") [] [];
   Node (ElementNode "tr") [] [14; 16];
   Node (ElementNode "td") [] [15];
   Node (TextNode "") [] [];
   Node (ElementNode "td") [] [17];
   Node (TextNode "42") [] [];
   Node (ElementNode "tr") [] [19; 21];
   Node (ElementNode "td") [] [20];
   Node (TextNode "10:00") [] [];
   Node (ElementNode "td") ["hot"] [22];
   Node (TextNode "99") [] []].

(** A batch with an array, an object that has classes but no content,
    and an object that has neither. *)
Definition example_rows_objects : list object :=
  [ [("t", VArray [VString "a"; VString "b"]);
     ("v", VObject [("classes", VArray [VString "hot"])])];
    [("t", VObject [])] ].

(** Two headings of one name. *)
Definition example_specs_twice : list heading_spec :=
  [HeadingSpec "t" (VString "First"); HeadingSpec "t" (VString "Second")].

(** The rows of the scenario with properties that no heading names. *)
Definition example_rows_more : list object :=
  [ [("x", VNumber 1%Z); ("t", VString "09:00")];
    [("v", VNumber 42%Z); ("y", VWrapper (Wrapper 0))];
    [("t", VString "10:00");
     ("v", VObject [("classes", VArray [VString "hot"]);
                    ("content", VString "99")])] ].

(** * Proofs *)

Section proofs.
Context {num : JSNumber}.

Lemma unmoved_nil n : unmoved [] n = n.
Proof.
  destruct n as [k cl cs]. unfold unmoved, set_childNodes. simpl. f_equal.
  induction cs as [|c cs IH]; [done|].
  rewrite filter_cons_True; [by rewrite IH | apply not_elem_of_nil].
Qed.

Lemma unmoved_app W1 W2 n : unmoved W2 (unmoved W1 n) = unmoved (W1 ++ W2) n.
Proof.
  destruct n as [k cl cs]. unfold unmoved, set_childNodes. simpl. f_equal.
  rewrite list_filter_filter. apply list_filter_iff. intros c.
  rewrite elem_of_app. tauto.
Qed.

Lemma unmoved_ext W W' n :
  (∀ c, c ∈ childNodes n → (c ∈ W ↔ c ∈ W')) →
  unmoved W n = unmoved W' n.
Proof.
  intros H. destruct n as [k cl cs]. unfold unmoved, set_childNodes.
  simpl in *. f_equal. induction cs as [|c cs IH]; [done|].
  assert (Hc : c ∈ W ↔ c ∈ W') by (apply H; left).
  rewrite !filter_cons. rewrite IH by (intros; apply H; by right).
  repeat case_decide; tauto.
Qed.

Lemma kind_unmoved W n : kind (unmoved W n) = kind n.
Proof. done. Qed.

Lemma classList_unmoved W n : classList (unmoved W n) = classList n.
Proof. done. Qed.

Lemma lookup_detach c s x : detach c s !! x = unmoved [c] <$> s !! x.
Proof.
  unfold detach. rewrite list_lookup_fmap. destruct (s !! x) as [n|]; [|done].
  simpl. f_equal. unfold unmoved. f_equal. apply list_filter_iff.
  intros y. rewrite list_elem_of_singleton. done.
Qed.

Lemma length_detach c s : length (detach c s) = length s.
Proof. unfold detach. by rewrite length_fmap. Qed.

(** parentNode *)

Lemma find_parent_ext x s s' i :
  Forall2 (λ n n', x ∈ childNodes n ↔ x ∈ childNodes n') s s' →
  find_parent x s i = find_parent x s' i.
Proof.
  intros H. revert i. induction H as [|n n' s s' Hn _ IH]; intros i; [done|].
  simpl. rewrite (bool_decide_ext _ _ Hn). by rewrite IH.
Qed.

Lemma find_parent_Some x s i p :
  find_parent x s i = Some p →
  ∃ n, s !! (p - i) = Some n ∧ x ∈ childNodes n ∧ i ≤ p.
Proof.
  revert i. induction s as [|n s IH]; intros i; [done|]. simpl.
  case_bool_decide as Hx.
  - intros [= <-]. exists n. rewrite Nat.sub_diag. done.
  - intros H. destruct (IH _ H) as (n' & Hl & Hin & Hle).
    exists n'. split_and!; [|done|lia].
    replace (p - i) with (S (p - S i)) by lia. done.
Qed.

Lemma find_parent_None x s i :
  find_parent x s i = None ↔ ∀ j n, s !! j = Some n → x ∉ childNodes n.
Proof.
  revert i. induction s as [|n s IH]; intros i; simpl.
  - split; [|done]. intros _ j n. by rewrite lookup_nil.
  - case_bool_decide as Hx.
    + split; [done|]. intros H. destruct (H 0 n eq_refl Hx).
    + rewrite IH. split.
      * intros H [|j] n'; simpl; [by intros [= <-]|]. apply H.
      * intros H j n' Hj. apply (H (S j)). done.
Qed.

Lemma parentNode_Some s x p :
  parentNode s x = Some p → ∃ n, s !! p = Some n ∧ x ∈ childNodes n.
Proof.
  intros H. apply find_parent_Some in H as (n & Hl & Hin & _).
  rewrite Nat.sub_0_r in Hl. eauto.
Qed.

Lemma parentNode_lt s x p : parentNode s x = Some p → p < length s.
Proof.
  intros H. apply parentNode_Some in H as (n & Hl & _).
  by apply lookup_lt_Some in Hl.
Qed.

Lemma parentNode_None s x :
  parentNode s x = None ↔ ∀ j n, s !! j = Some n → x ∉ childNodes n.
Proof. apply find_parent_None. Qed.

Lemma parentNode_fresh s x :
  closed s → length s ≤ x → parentNode s x = None.
Proof.
  intros Hc Hx. apply parentNode_None. intros j n Hj Hin.
  specialize (Hc _ _ _ Hj Hin). lia.
Qed.

Lemma parentNode_alloc s n y :
  childNodes n = [] → parentNode (s ++ [n]) y = parentNode s y.
Proof.
  intros Hn. unfold parentNode. generalize 0.
  induction s as [|m s IH]; intros i; simpl.
  - rewrite Hn. rewrite bool_decide_eq_false_2; [done|apply not_elem_of_nil].
  - by rewrite IH.
Qed.

Lemma Forall2_alter_fmap {A} (R : A → A → Prop) (f g : A → A) p
    (s : list A) :
  (∀ n, R n (g n)) → (∀ n, R n (f (g n))) →
  Forall2 R s (alter f p (g <$> s)).
Proof.
  intros Hg Hf.
  assert (Hs : ∀ s : list A, Forall2 R s (g <$> s)).
  { intros l. induction l; simpl; constructor; auto. }
  revert p. induction s as [|n s IH]; intros p; [constructor|].
  destruct p; simpl; constructor; auto. apply IH.
Qed.

Lemma parentNode_moved s p c y :
  y ≠ c →
  parentNode (alter (push_child c) p (detach c s)) y = parentNode s y.
Proof.
  intros Hy. symmetry. apply find_parent_ext. apply Forall2_alter_fmap.
  - intros n. simpl. rewrite list_elem_of_filter. tauto.
  - intros n. simpl. rewrite elem_of_app, list_elem_of_filter,
      list_elem_of_singleton. tauto.
Qed.

(** inclusive ancestors *)

Lemma inclusive_ancestors_mono f f' s x anc :
  inclusive_ancestors f s x = Some anc → f ≤ f' →
  inclusive_ancestors f' s x = Some anc.
Proof.
  revert f' x anc. induction f as [|f IH]; intros f' x anc; simpl.
  - destruct f'; simpl; destruct (parentNode s x); done.
  - destruct f' as [|f']; [lia|]. simpl.
    destruct (parentNode s x) as [p|]; [|done].
    destruct (inclusive_ancestors f s p) as [a|] eqn:E; [|done].
    intros [= <-] Hle. rewrite (IH f' p a); [done|done|lia].
Qed.

Lemma inclusive_ancestors_lt f s x anc :
  inclusive_ancestors f s x = Some anc → x < length s →
  Forall (λ a, a < length s) anc.
Proof.
  revert x anc. induction f as [|f IH]; intros x anc; simpl.
  - destruct (parentNode s x); [done|]. intros [= <-] Hx. by constructor.
  - destruct (parentNode s x) as [p|] eqn:Hp.
    + destruct (inclusive_ancestors f s p) as [a|] eqn:E; [|done].
      intros [= <-] Hx. constructor; [done|]. eapply IH; [done|].
      by eapply parentNode_lt.
    + intros [= <-] Hx. by constructor.
Qed.

Lemma inclusive_ancestors_self f s x anc :
  inclusive_ancestors f s x = Some anc → x ∈ anc.
Proof.
  destruct f; simpl; destruct (parentNode s x) as [p|]; try done.
  - intros [= <-]. left.
  - destruct (inclusive_ancestors f s p); [|done]. intros [= <-]. left.
  - intros [= <-]. left.
Qed.

Lemma inclusive_ancestors_root f s x :
  parentNode s x = None → inclusive_ancestors f s x = Some [x].
Proof. intros H. destruct f; simpl; by rewrite H. Qed.

Lemma inclusive_ancestors_ext f s s' x anc :
  inclusive_ancestors f s x = Some anc →
  (∀ y, y ∈ anc → parentNode s' y = parentNode s y) →
  inclusive_ancestors f s' x = Some anc.
Proof.
  revert x anc. induction f as [|f IH]; intros x anc; simpl.
  - destruct (parentNode s x) eqn:Hp; [done|]. intros [= <-] H.
    rewrite H, Hp; [done|left].
  - destruct (parentNode s x) as [p|] eqn:Hp.
    + destruct (inclusive_ancestors f s p) as [a|] eqn:E; [|done].
      intros [= <-] H. rewrite H, Hp by left.
      rewrite (IH p a); [done|done|]. intros y Hy. apply H. by right.
    + intros [= <-] H. rewrite H, Hp; [done|left].
Qed.

Lemma NoDup_bounded (l : list nat) n :
  NoDup l → Forall (λ x, x < n) l → length l ≤ n.
Proof.
  intros Hnd Hl. transitivity (length (seq 0 n)); [|by rewrite length_seq].
  apply submseteq_length, NoDup_submseteq; [done|]. intros x Hx.
  rewrite Forall_forall in Hl. apply elem_of_seq. specialize (Hl x Hx). lia.
Qed.

Lemma inclusive_ancestors_fuel (rank : nat → nat) s f x seen :
  (∀ x p, parentNode s x = Some p → rank p < rank x) →
  x < length s → NoDup seen →
  Forall (λ v, v < length s ∧ rank x < rank v) seen →
  length s ≤ f + length seen + 1 →
  is_Some (inclusive_ancestors f s x).
Proof.
  intros Hrank. revert x seen.
  induction f as [|f IH]; intros x seen Hx Hnd Hseen Hlen; simpl;
    destruct (parentNode s x) as [p|] eqn:Hp; try done.
  - exfalso. pose proof (parentNode_lt _ _ _ Hp) as Hpl.
    pose proof (Hrank _ _ Hp) as Hpr.
    assert (Hb : length (p :: x :: seen) ≤ length s).
    { apply NoDup_bounded.
      - rewrite Forall_forall in Hseen.
        constructor; [|constructor; [|done]].
        + rewrite elem_of_cons. intros [->|Hin]; [lia|].
          specialize (Hseen _ Hin). lia.
        + intros Hin. specialize (Hseen _ Hin). lia.
      - constructor; [done|]. constructor; [done|].
        eapply Forall_impl; [done|]. by intros v [? _]. }
    simpl in Hb. lia.
  - pose proof (parentNode_lt _ _ _ Hp) as Hpl.
    pose proof (Hrank _ _ Hp) as Hpr.
    destruct (IH p (x :: seen)) as [anc Hanc]; [done| | | |].
    + rewrite Forall_forall in Hseen. constructor; [|done].
      intros Hin. specialize (Hseen _ Hin). lia.
    + constructor; [done|]. eapply Forall_impl; [done|].
      intros v [? ?]. split; [done|lia].
    + simpl. lia.
    + rewrite Hanc. by eexists.
Qed.

(** In a forest the walk to the root never runs out of steps. *)
Lemma inclusive_ancestors_forest s x :
  forest s → x < length s → is_Some (inclusive_ancestors (length s) s x).
Proof.
  intros [rank Hrank] Hx.
  apply (inclusive_ancestors_fuel rank s (length s) x []);
    [done|done|constructor|constructor|simpl; lia].
Qed.

Lemma step_refl s : step [] [] s s.
Proof.
  split; [lia|eauto| |done].
  intros x n Hx _. by rewrite unmoved_nil.
Qed.

Lemma step_trans W1 W2 P1 P2 s s' s'' :
  step W1 P1 s s' → step W2 P2 s' s'' → step (W1 ++ W2) (P1 ++ P2) s s''.
Proof.
  intros [Hl1 Hk1 Hf1 Hp1] [Hl2 Hk2 Hf2 Hp2]. split.
  - lia.
  - intros x n Hx. destruct (Hk1 _ _ Hx) as (n' & Hx' & Hn').
    destruct (Hk2 _ _ Hx') as (n'' & Hx'' & Hn''). exists n''.
    split; [done|congruence].
  - intros x n Hx HP. rewrite not_elem_of_app in HP. destruct HP as [HP1 HP2].
    rewrite <- unmoved_app. apply Hf2; [|done]. by apply Hf1.
  - intros y Hy HW. rewrite not_elem_of_app in HW. destruct HW as [HW1 HW2].
    rewrite Hp2; [by apply Hp1|lia|done].
Qed.

Lemma step_weaken W P W' P' s s' :
  closed s → step W P s s' →
  (∀ c, c < length s → (c ∈ W ↔ c ∈ W')) →
  (∀ x, x < length s → x ∈ P → x ∈ P') →
  step W' P' s s'.
Proof.
  intros Hc [Hl Hk Hf Hp] HW HP. split; [done|done| |].
  - intros x n Hx HxP. rewrite (Hf x n Hx).
    + f_equal. apply unmoved_ext. intros c Hcn. apply HW. eauto.
    + intros Hin. apply HxP, HP; [|done]. by eapply lookup_lt_Some.
  - intros y Hy HyW. apply Hp; [done|]. by rewrite HW.
Qed.

Lemma step_grow W P P' s s' :
  step W P s s' → (∀ x, x ∈ P → x ∈ P') → step W P' s s'.
Proof.
  intros [Hl Hk Hf Hp] HP. split; [done|done| |done].
  intros x n Hx HxP. apply Hf; [done|]. intros Hin. by apply HxP, HP.
Qed.

Lemma step_seq W1 W2 P s s' s'' :
  step W1 P s s' → step W2 P s' s'' → step (W1 ++ W2) P s s''.
Proof.
  intros H1 H2. eapply step_grow; [by eapply step_trans|].
  intros x. rewrite elem_of_app. tauto.
Qed.

Lemma step_chain W P s s' f x anc :
  step W P s s' → inclusive_ancestors f s x = Some anc → x < length s →
  (∀ w, w ∈ W → w ∉ anc) →
  inclusive_ancestors f s' x = Some anc.
Proof.
  intros Hs Ha Hx HW. eapply inclusive_ancestors_ext; [done|].
  intros y Hy. apply (step_parent _ _ _ _ Hs).
  - eapply inclusive_ancestors_lt in Ha; [|done].
    rewrite Forall_forall in Ha. by apply Ha.
  - intros Hw. by apply (HW y).
Qed.

Lemma step_root W P s s' x :
  step W P s s' → x < length s → x ∉ W →
  parentNode s x = None → parentNode s' x = None.
Proof. intros Hs Hx HW Hr. by rewrite (step_parent _ _ _ _ Hs). Qed.

Lemma step_lookup W P s s' x n :
  step W P s s' → s !! x = Some n → x ∉ P → s' !! x = Some (unmoved W n).
Proof. intros Hs. apply (step_frame _ _ _ _ Hs). Qed.

(** allocation *)

Lemma closed_alloc s n : closed s → childNodes n = [] → closed (s ++ [n]).
Proof.
  intros Hc Hn x m c Hx Hin. rewrite length_app. simpl.
  destruct (decide (x < length s)) as [Hlt|Hge].
  - rewrite lookup_app_l in Hx by done. specialize (Hc _ _ _ Hx Hin). lia.
  - rewrite lookup_app_r in Hx by lia.
    destruct (x - length s); simpl in Hx; [|done].
    injection Hx as <-. rewrite Hn in Hin. by apply elem_of_nil in Hin.
Qed.

Lemma step_alloc s n : childNodes n = [] → step [] [] s (s ++ [n]).
Proof.
  intros Hn. split.
  - rewrite length_app. lia.
  - intros x m Hx. exists m. split; [|done].
    rewrite lookup_app_l; [done|]. by eapply lookup_lt_Some.
  - intros x m Hx _. rewrite unmoved_nil.
    rewrite lookup_app_l; [done|]. by eapply lookup_lt_Some.
  - intros y _ _. by apply parentNode_alloc.
Qed.

Lemma lookup_alloc (s : list node) n : (s ++ [n]) !! length s = Some n.
Proof. rewrite lookup_app_r by lia. by rewrite Nat.sub_diag. Qed.

Lemma length_moved_to p c s : length (moved_to p c s) = length s.
Proof. unfold moved_to. by rewrite length_alter, length_detach. Qed.

Lemma lookup_moved_to_eq p c s pn :
  s !! p = Some pn →
  moved_to p c s !! p = Some (push_child c (unmoved [c] pn)).
Proof.
  intros Hp. unfold moved_to.
  rewrite list_lookup_alter_eq, lookup_detach, Hp. done.
Qed.

Lemma lookup_moved_to_ne p c s x :
  x ≠ p → moved_to p c s !! x = unmoved [c] <$> s !! x.
Proof.
  intros Hx. unfold moved_to.
  rewrite list_lookup_alter_ne by done. apply lookup_detach.
Qed.

Lemma step_moved_to p c s : step [c] [p] s (moved_to p c s).
Proof.
  split.
  - by rewrite length_moved_to.
  - intros x n Hx. destruct (decide (x = p)) as [->|Hne].
    + eexists. split; [by apply lookup_moved_to_eq|done].
    + eexists. rewrite lookup_moved_to_ne, Hx by done. done.
  - intros x n Hx HP. rewrite list_elem_of_singleton in HP.
    rewrite lookup_moved_to_ne, Hx by done. done.
  - intros y _ Hy. rewrite list_elem_of_singleton in Hy.
    by apply parentNode_moved.
Qed.

Lemma closed_moved_to p c s :
  closed s → c < length s → closed (moved_to p c s).
Proof.
  intros Hc Hlt x n d Hx Hd. rewrite length_moved_to.
  destruct (decide (x = p)) as [->|Hne].
  - destruct (s !! p) as [pn|] eqn:Hp.
    + rewrite (lookup_moved_to_eq _ _ _ _ Hp) in Hx. injection Hx as <-.
      simpl in Hd. rewrite elem_of_app, list_elem_of_filter in Hd.
      destruct Hd as [[_ Hd]|Hd]; [by eapply Hc|].
      apply list_elem_of_singleton in Hd. by subst.
    + apply lookup_ge_None in Hp. apply lookup_lt_Some in Hx.
      rewrite length_moved_to in Hx. lia.
  - rewrite lookup_moved_to_ne in Hx by done.
    destruct (s !! x) as [m|] eqn:Hm; [|done]. injection Hx as <-.
    simpl in Hd. rewrite list_elem_of_filter in Hd. destruct Hd. by eapply Hc.
Qed.

Lemma appendChild_ok p c s pn anc :
  s !! p = Some pn → is_element pn = true → c < length s →
  inclusive_ancestors (length s) s p = Some anc → c ∉ anc →
  appendChild p c s = Ok (tt, moved_to p c s).
Proof.
  intros Hp He Hc Ha Hn. unfold appendChild. rewrite Hp.
  destruct (lookup_lt_is_Some_2 s c Hc) as [cn Hcn]. rewrite Hcn, He, Ha.
  by rewrite bool_decide_eq_false_2.
Qed.

Lemma bind_Ok {A B} (m : M A) (k : A → M B) s a s' :
  m s = Ok (a, s') → bind m k s = k a s'.
Proof. intros H. unfold bind. by rewrite H. Qed.

Lemma for_of_app {A} (xs ys : list A) (body : A → M unit) s :
  for_of (xs ++ ys) body s = (for_of xs body ;; for_of ys body) s.
Proof.
  revert s. induction xs as [|x xs IH]; intros s; simpl.
  - done.
  - unfold bind. destruct (body x s) as [[[] s1]|e]; [|done].
    rewrite IH. done.
Qed.

Lemma new_ElementWrapper_eq tag s :
  new_ElementWrapper tag s
  = Ok (Wrapper (length s), s ++ [Node (ElementNode tag) [] []]).
Proof. done. Qed.

Lemma new_TextNodeWrapper_string str s :
  new_TextNodeWrapper (VString str) s
  = Ok (Wrapper (length s), s ++ [Node (TextNode str) [] []]).
Proof.
  unfold new_TextNodeWrapper, bind, createTextNode, ret. simpl.
  destruct str; done.
Qed.

Lemma resolve_child_leaf v s :
  content_ok 0 [] v = true → moved v = [] →
  resolve_child v s
  = Ok (VWrapper (Wrapper (length s)),
        s ++ [Node (TextNode (text_of v)) [] []]).
Proof.
  intros Hok Hm. unfold resolve_child, text_of.
  destruct v; try done; simpl;
    unfold bind; rewrite ?new_TextNodeWrapper_string; done.
Qed.

Lemma content_ok_mono b b' anc v :
  b ≤ b' → content_ok b anc v = true → content_ok b' anc v = true.
Proof.
  intros Hl. destruct v; try done. simpl.
  rewrite !andb_true_iff, !bool_decide_eq_true. intros [??]. split; [lia|done].
Qed.

Lemma append_child_spec this v s pn anc :
  closed s → s !! element this = Some pn → is_element pn = true →
  inclusive_ancestors (length s) s (element this) = Some anc →
  content_ok (length s) anc v = true →
  ∃ s' c, append_child this v s = Ok (tt, s') ∧ closed s'
    ∧ step (moved v) [element this] s s'
    ∧ s' !! element this = Some (push_child c (unmoved (moved v) pn))
    ∧ placed s s' v c
    ∧ inclusive_ancestors (length s') s' (element this) = Some anc.
Proof.
  intros Hc Hp He Ha Hok. set (p := element this) in *.
  assert (Hplt : p < length s) by (by eapply lookup_lt_Some).
  assert (Hanc : Forall (λ a, a < length s) anc)
    by (by eapply inclusive_ancestors_lt).
  destruct (decide (moved v = [])) as [Hm|Hm].
  - (* a text node is made *)
    set (tn := Node (TextNode (text_of v)) [] []).
    set (s1 := s ++ [tn]).
    assert (Hr : resolve_child v s = Ok (VWrapper (Wrapper (length s)), s1)).
    { apply resolve_child_leaf; [|done]. by destruct v. }
    assert (Hc1 : closed s1) by (by apply closed_alloc).
    assert (Hs1 : step [] [] s s1) by (by apply step_alloc).
    assert (Hl1 : length s1 = S (length s))
      by (unfold s1; rewrite length_app; simpl; lia).
    assert (Ha1 : inclusive_ancestors (length s1) s1 p = Some anc).
    { eapply step_chain; [done| |done|by intros ? ?%elem_of_nil].
      eapply inclusive_ancestors_mono; [done|lia]. }
    assert (Hp1 : s1 !! p = Some pn) by (unfold s1; by rewrite lookup_app_l).
    assert (Hfresh : length s ∉ anc).
    { intros Hin. rewrite Forall_forall in Hanc. specialize (Hanc _ Hin). lia. }
    exists (moved_to p (length s) s1), (length s). split_and!.
    + unfold append_child. rewrite (bind_Ok _ _ _ _ _ Hr). simpl.
      unfold bind at 1. unfold ret. simpl.
      eapply appendChild_ok; [done|done|lia|done|done].
    + apply closed_moved_to; [done|lia].
    + rewrite Hm. eapply step_weaken; [done| |..].
      * eapply step_trans; [exact Hs1|apply step_moved_to].
      * intros c Hlt. simpl. rewrite list_elem_of_singleton.
        split; [lia|by intros ?%elem_of_nil].
      * intros x _ Hx. by rewrite app_nil_l in Hx.
    + rewrite (lookup_moved_to_eq _ _ _ _ Hp1). f_equal. f_equal.
      rewrite Hm, unmoved_nil. rewrite <- (unmoved_nil pn) at 2.
      apply unmoved_ext. intros c Hcn. specialize (Hc _ _ _ Hp Hcn).
      rewrite list_elem_of_singleton. split; [lia|by intros ?%elem_of_nil].
    + assert (Hpl : length (moved_to p (length s) s1) = S (length s)
        ∧ moved_to p (length s) s1 !! length s = Some tn).
      { split; [by rewrite length_moved_to|].
        rewrite lookup_moved_to_ne by lia. unfold s1.
        rewrite lookup_alloc. done. }
      destruct v; try done; simpl; tauto.
    + rewrite length_moved_to. eapply step_chain;
        [apply step_moved_to|done|lia|].
      intros w Hw. apply list_elem_of_singleton in Hw. by subst.
  - (* a wrapper is used as it is *)
    destruct v as [| | | | | | |w]; try done. simpl in *.
    rewrite andb_true_iff, !bool_decide_eq_true in Hok. destruct Hok as [Hw Hn].
    exists (moved_to p (element w) s), (element w). split_and!.
    + unfold append_child, resolve_child. simpl.
      unfold bind, ret, element_of. simpl.
      eapply appendChild_ok; done.
    + by apply closed_moved_to.
    + apply step_moved_to.
    + by apply lookup_moved_to_eq.
    + done.
    + by rewrite length_moved_to.
    + rewrite length_moved_to. eapply step_chain;
        [apply step_moved_to|done|lia|].
      intros x Hx. apply list_elem_of_singleton in Hx. by subst.
Qed.

Lemma set_childNodes_id n : set_childNodes (childNodes n) n = n.
Proof. by destruct n. Qed.

Lemma set_classList_id n : set_classList (classList n) n = n.
Proof. by destruct n. Qed.

Lemma append_cons this v vs s :
  append this (v :: vs) s = (append_child this v ;; append this vs) s.
Proof.
  unfold append. simpl. unfold bind.
  by destruct (append_child this v s) as [[[] s1]|e].
Qed.

Lemma append_nil this s : append this [] s = Ok (this, s).
Proof. done. Qed.

Lemma append_singleton this v s s' :
  append_child this v s = Ok (tt, s') → append this [v] s = Ok (this, s').
Proof. intros H. rewrite append_cons. by rewrite (bind_Ok _ _ _ _ _ H). Qed.

Lemma place_unmoved v cs c (s : list node) :
  (∀ x, x ∈ cs → x < length s) →
  (match v with VWrapper w => c = element w | _ => c = length s end) →
  filter (λ x, x ∉ moved v) cs ++ [c] = place cs c.
Proof.
  intros Hcs Hc. unfold place. f_equal.
  assert (Hw : ∀ w, v = VWrapper w →
    filter (λ x, x ∉ moved v) cs = filter (λ x, x ≠ c) cs).
  { intros w ->. simpl in *. subst c. apply list_filter_iff. intros x.
    by rewrite list_elem_of_singleton. }
  assert (Hl : moved v = [] → c = length s →
    filter (λ x, x ∉ moved v) cs = filter (λ x, x ≠ c) cs).
  { intros -> ->. clear Hw. induction cs as [|x cs IH]; [done|].
    rewrite !filter_cons_True.
    - f_equal. apply IH. intros; apply Hcs; by right.
    - assert (x < length s) by (apply Hcs; left). lia.
    - apply not_elem_of_nil. }
  destruct v; eauto.
Qed.

Lemma append_spec this vs s pn anc :
  closed s → s !! element this = Some pn → is_element pn = true →
  inclusive_ancestors (length s) s (element this) = Some anc →
  Forall (λ v, content_ok (length s) anc v = true) vs →
  ∃ s' cs pn', append this vs s = Ok (this, s') ∧ closed s'
    ∧ step (vs ≫= moved) [element this] s s'
    ∧ s' !! element this = Some pn' ∧ kind pn' = kind pn
    ∧ classList pn' = classList pn
    ∧ childNodes pn' = foldl place (childNodes pn) cs
    ∧ Forall2 (resolved s s') vs cs
    ∧ inclusive_ancestors (length s') s' (element this) = Some anc
    ∧ cs = resolved_nodes (length s) vs
    ∧ length s' = length s + length (filter (λ v, moved v = []) vs).
Proof.
  revert s pn. induction vs as [|v vs IH]; intros s pn Hc Hp He Ha Hok.
  - exists s, [], pn. split_and!; try done.
    eapply step_grow; [apply step_refl|by intros ? ?%elem_of_nil].
  - apply Forall_cons in Hok as [Hv Hvs].
    destruct (append_child_spec this v s pn anc Hc Hp He Ha Hv)
      as (s1 & c & Hrun & Hc1 & Hs1 & Hp1 & Hpl & Ha1).
    assert (Hl1 : length s ≤ length s1) by apply Hs1.
    destruct (IH s1 _ Hc1 Hp1) as (s' & cs & pn' & Hrun' & Hc' & Hs' & Hp' & Hk'
      & Hcl' & Hcn' & Hres & Ha' & Hcs & Hlen); [done|done| |].
    { eapply Forall_impl; [done|]. intros w. simpl.
      by apply content_ok_mono. }
    exists s', (c :: cs), pn'. split_and!; try done.
    + rewrite append_cons. by rewrite (bind_Ok _ _ _ _ _ Hrun).
    + simpl. by eapply step_seq.
    + rewrite Hcn'. simpl. f_equal.
      apply (place_unmoved v _ _ s); [by eauto|].
      destruct v; simpl in Hpl; tauto.
    + constructor.
      * assert (Hc_ne : match v with
                        | VWrapper _ => True
                        | _ => c ≠ element this
                        end).
        { apply lookup_lt_Some in Hp. destruct v; simpl in Hpl; try done; lia. }
        destruct v; simpl in *; try tauto;
          (split; [lia|]); destruct Hpl as (-> & _ & Hpl);
          rewrite (step_lookup _ _ _ _ _ _ Hs' Hpl); try done;
          rewrite list_elem_of_singleton; done.
      * eapply Forall2_impl; [done|]. intros w d. unfold resolved.
        destruct w; try done; intros [??]; split; try done; lia.
    + rewrite Hcs.
      destruct v; simpl in Hpl;
        first [destruct Hpl as (-> & Hl & _)|destruct Hpl as (-> & Hl)];
        simpl; by rewrite ?Hl.
    + rewrite Hlen.
      destruct v; simpl in Hpl;
        first [destruct Hpl as (_ & Hl & _)|destruct Hpl as (_ & Hl)];
        rewrite ?filter_cons_True, ?filter_cons_False by done; simpl; lia.
Qed.

Lemma alter_insert {A} (f : A → A) (l : list A) i x :
  l !! i = Some x → alter f i l = <[i := f x]> l.
Proof.
  revert i. induction l as [|y l IH]; intros [|i]; simpl; try done.
  - by intros [= ->].
  - intros H. f_equal. by apply IH.
Qed.

(** Replacing a node by one with the same kind and children. *)
Lemma parentNode_insert s e n n' y :
  s !! e = Some n → childNodes n' = childNodes n →
  parentNode (<[e := n']> s) y = parentNode s y.
Proof.
  intros He Hn. symmetry. apply find_parent_ext.
  revert e He. induction s as [|m s IH]; intros [|e]; simpl; try done.
  - intros [= ->]. constructor; [by rewrite Hn|].
    clear. induction s; constructor; auto.
  - intros He. constructor; [done|by apply IH].
Qed.

Lemma step_insert s e n n' :
  s !! e = Some n → kind n' = kind n → childNodes n' = childNodes n →
  step [] [e] s (<[e := n']> s).
Proof.
  intros He Hk Hc. split.
  - by rewrite length_insert.
  - intros x m Hx. destruct (decide (x = e)) as [->|Hne].
    + exists n'. rewrite list_lookup_insert_eq by (by eapply lookup_lt_Some).
      split; [done|congruence].
    + exists m. by rewrite list_lookup_insert_ne.
  - intros x m Hx HP. rewrite list_elem_of_singleton in HP.
    by rewrite list_lookup_insert_ne, unmoved_nil.
  - intros y _ _. by eapply parentNode_insert.
Qed.

Lemma closed_insert s e n n' :
  closed s → s !! e = Some n →
  (∀ c, c ∈ childNodes n' → c ∈ childNodes n) →
  closed (<[e := n']> s).
Proof.
  intros Hc He Hn x m c Hx Hin. rewrite length_insert.
  destruct (decide (x = e)) as [->|Hne].
  - rewrite list_lookup_insert_eq in Hx by (by eapply lookup_lt_Some).
    injection Hx as <-. eapply Hc; [done|]. by apply Hn.
  - rewrite list_lookup_insert_ne in Hx by done. by eapply Hc.
Qed.

(** addClasses *)

Lemma classList_add_ok e token s n :
  s !! e = Some n → is_element n = true →
  String.eqb token "" = false → has_whitespace token = false →
  classList_add e token s
  = Ok (tt, <[e := set_classList (add_token (classList n) token) n]> s).
Proof.
  intros He Hn Ht Hw. unfold classList_add, add_token.
  rewrite He, Hn, Ht, Hw. case_bool_decide.
  - by rewrite set_classList_id, list_insert_id.
  - by rewrite (alter_insert _ _ _ _ He).
Qed.

Lemma addClasses_cons this cls classes s :
  addClasses this (cls :: classes) s
  = (add_class this cls ;; addClasses this classes) s.
Proof.
  unfold addClasses. simpl. unfold bind.
  by destruct (add_class this cls s) as [[[] s1]|e].
Qed.

Lemma tokens_of_cons cls classes :
  tokens_of (cls :: classes)
  = if truthy cls then toString cls :: tokens_of classes
    else tokens_of classes.
Proof.
  unfold tokens_of. rewrite filter_cons.
  destruct (truthy cls) eqn:E; case_decide; done.
Qed.

Lemma addClasses_spec this classes s n :
  s !! element this = Some n → is_element n = true →
  Forall (λ cls, token_ok cls = true) classes →
  addClasses this classes s
  = Ok (this, <[element this :=
          set_classList (foldl add_token (classList n) (tokens_of classes))
                        n]> s).
Proof.
  revert s n. induction classes as [|cls classes IH]; intros s n He Hn Hok.
  - unfold addClasses, tokens_of. simpl.
    by rewrite set_classList_id, list_insert_id.
  - apply Forall_cons in Hok as [Hcls Hok].
    rewrite addClasses_cons, tokens_of_cons. unfold add_class.
    unfold token_ok in Hcls. destruct (truthy cls).
    + apply andb_true_iff in Hcls as [H1 H2].
      apply negb_true_iff in H1, H2.
      rewrite (bind_Ok _ _ _ _ _ (classList_add_ok _ _ _ _ He Hn H1 H2)).
      rewrite (IH _ (set_classList (add_token (classList n) (toString cls)) n));
        [|by rewrite list_lookup_insert_eq by (by eapply lookup_lt_Some)
         |done|done].
      simpl. by rewrite list_insert_insert_eq.
    + unfold bind, ret. by apply IH.
Qed.

Lemma add_class_Ok this cls s s' :
  add_class this cls s = Ok (tt, s') → token_ok cls = true.
Proof.
  unfold add_class, token_ok, classList_add.
  destruct (truthy cls); [|done].
  destruct (s !! element this) as [n|]; [|done].
  destruct (is_element n); [|done].
  destruct (String.eqb (toString cls) ""); [done|].
  by destruct (has_whitespace (toString cls)).
Qed.

(** [addClasses] returns only when every class can be added or is
    skipped. *)
Lemma addClasses_Ok this classes : ∀ s w s',
  addClasses this classes s = Ok (w, s') →
  Forall (λ cls, token_ok cls = true) classes.
Proof.
  induction classes as [|cls classes IH]; intros s w s' H; [constructor|].
  rewrite addClasses_cons in H. unfold bind at 1 in H.
  destruct (add_class this cls s) as [[[] s1]|e] eqn:E; [|done].
  constructor; [by eapply add_class_Ok|by eapply IH].
Qed.

(** clear *)

Lemma is_element_at_insert s e n n' x :
  s !! e = Some n → kind n' = kind n →
  is_element_at (<[e := n']> s) x = is_element_at s x.
Proof.
  intros He Hk. unfold is_element_at. destruct (decide (x = e)) as [->|Hne].
  - rewrite list_lookup_insert_eq by (by eapply lookup_lt_Some).
    rewrite He. unfold is_element. by rewrite Hk.
  - by rewrite list_lookup_insert_ne.
Qed.

Lemma filter_length_lt_elem (P : nat → Prop) `{∀ x, Decision (P x)} l c :
  c ∈ l → ¬ P c → length (filter P l) < length l.
Proof.
  intros Hin Hc. induction Hin as [c l|c d l Hin IH].
  - rewrite filter_cons_False by done. simpl.
    pose proof (length_filter P l). lia.
  - specialize (IH Hc). rewrite filter_cons. case_decide; simpl; lia.
Qed.

Lemma clear_loop_spec fuel this s n :
  s !! element this = Some n → is_element n = true →
  length (childNodes n) ≤ fuel →
  clear_loop fuel this s
  = Ok (tt, <[element this :=
          set_childNodes
            (filter (λ c, is_element_at s c ≠ true) (childNodes n)) n]> s).
Proof.
  revert s n. induction fuel as [|fuel IH]; intros s n He Hn Hlen.
  - simpl. rewrite He. unfold is_element in Hn.
    destruct (kind n) eqn:Hk; [done|].
    destruct (childNodes n) eqn:Hcs; [|simpl in Hlen; lia].
    unfold children. rewrite Hcs, !filter_nil.
    replace (set_childNodes [] n) with n
      by (rewrite <- Hcs; by rewrite set_childNodes_id).
    by rewrite list_insert_id.
  - simpl. rewrite He. pose proof Hn as Hn'. unfold is_element in Hn'.
    destruct (kind n) eqn:Hk; [done|]. clear Hn'.
    destruct (children s n) as [|c cs] eqn:Hch.
    + f_equal. f_equal. symmetry.
      rewrite <- (set_childNodes_id n) at 2.
      rewrite list_insert_id; [done|]. rewrite He. f_equal.
      rewrite set_childNodes_id. destruct n as [k cl cn]. simpl in *.
      unfold set_childNodes. simpl. f_equal. unfold children in Hch.
      simpl in Hch. clear -Hch. induction cn as [|x cn IHc]; [done|].
      rewrite filter_cons in Hch. rewrite filter_cons.
      destruct (decide (is_element_at s x = true)); [done|].
      rewrite decide_True by done. f_equal. by apply IHc.
    + assert (Hc : c ∈ childNodes n ∧ is_element_at s c = true).
      { assert (Hin : c ∈ children s n) by (rewrite Hch; left).
        unfold children in Hin. apply list_elem_of_filter in Hin. tauto. }
      destruct Hc as [Hcin Hcel].
      set (n1 := set_childNodes (filter (λ x, x ≠ c) (childNodes n)) n).
      assert (Hrm : removeChild (element this) c s
                    = Ok (tt, <[element this := n1]> s)).
      { unfold removeChild. rewrite He, bool_decide_eq_true_2 by done.
        by rewrite (alter_insert _ _ _ _ He). }
      rewrite (bind_Ok _ _ _ _ _ Hrm).
      rewrite (IH _ n1);
        [|by rewrite list_lookup_insert_eq by (by eapply lookup_lt_Some)
         |done|].
      * rewrite list_insert_insert_eq. do 3 f_equal.
        unfold n1, set_childNodes. simpl. f_equal.
        rewrite list_filter_filter. apply list_filter_iff. intros x.
        rewrite (is_element_at_insert _ _ n) by done.
        split; [tauto|]. intros Hx. split; [done|]. congruence.
      * simpl. assert (length (filter (λ x, x ≠ c) (childNodes n))
                       < length (childNodes n)); [|lia].
        apply (filter_length_lt_elem _ _ c); [done|]. tauto.
Qed.

Lemma clear_spec this s n :
  s !! element this = Some n → is_element n = true →
  clear this s
  = Ok (this, <[element this :=
          set_childNodes
            (filter (λ c, is_element_at s c ≠ true) (childNodes n)) n]> s).
Proof.
  intros He Hn. unfold clear, childNodes_of. rewrite He.
  by rewrite (bind_Ok _ _ _ _ _ (clear_loop_spec _ _ _ _ He Hn (le_n _))).
Qed.

Lemma hasOwnProperty_plain row key s :
  plain_record row = true →
  hasOwnProperty row key s
  = Ok (match own_property key row with Some _ => true | None => false end,
        s).
Proof.
  unfold plain_record, hasOwnProperty.
  by destruct (own_property "hasOwnProperty" row).
Qed.

Lemma fill_cell_eq cell row col s :
  plain_record row = true →
  fill_cell cell row col s
  = (set_classes cell (own_property (name col) row) ;;
     append cell [cell_content (own_property (name col) row)] ;;
     ret tt) s.
Proof.
  intros Hplain. unfold fill_cell.
  rewrite (bind_Ok _ _ _ _ _ (hasOwnProperty_plain _ _ _ Hplain)).
  unfold set_classes, cell_content, fill_decorated.
  destruct (own_property (name col) row) as [v|]; simpl; [|done].
  destruct (is_decorated v); [|done].
  destruct (truthy (get_property v "classes")); [|done].
  destruct (spread (get_property v "classes")); done.
Qed.

Lemma set_classes_spec cell o s tag old anc :
  s !! element cell = Some (Node (ElementNode tag) [] []) →
  cell_ok old anc o = true →
  set_classes cell o s
  = Ok (tt, <[element cell :=
          Node (ElementNode tag)
               (foldl add_token [] (tokens_of (cell_classes o))) []]> s).
Proof.
  intros Hc Hok. unfold set_classes, cell_classes, cell_ok in *.
  assert (Hid : Ok (tt, s) = Ok (tt, <[element cell :=
            Node (ElementNode tag) (foldl add_token [] (tokens_of [])) []]> s)).
  { unfold tokens_of. rewrite filter_nil. simpl. by rewrite list_insert_id. }
  destruct o as [v|]; [|done].
  destruct (is_decorated v); [|done]. simpl.
  apply andb_true_iff in Hok as [Hcl _]. unfold classes_ok in Hcl.
  destruct (truthy (get_property v "classes")); [|done].
  destruct (spread (get_property v "classes")) as [cs|]; [|done]. simpl.
  rewrite forallb_forall in Hcl.
  assert (HF : Forall (λ cls, token_ok cls = true) cs).
  { apply Forall_forall. intros x Hx. apply Hcl. by apply list_elem_of_In. }
  by rewrite (bind_Ok _ _ _ _ _ (addClasses_spec cell cs s _ Hc eq_refl HF)).
Qed.

Lemma cell_ok_content old anc o :
  cell_ok old anc o = true → content_ok old anc (cell_content o) = true.
Proof.
  unfold cell_ok, cell_content. destruct o as [v|]; [|done].
  destruct (is_decorated v); [|done]. by intros [_ ?]%andb_true_iff.
Qed.

Lemma fill_cell_spec cell row col s tag old anc :
  let o := own_property (name col) row in
  closed s → s !! element cell = Some (Node (ElementNode tag) [] []) →
  parentNode s (element cell) = None → old ≤ element cell →
  plain_record row = true → cell_ok old anc o = true →
  ∃ s' c, fill_cell cell row col s = Ok (tt, s') ∧ closed s'
    ∧ step (spliced_cell o) [element cell] s s'
    ∧ s' !! element cell
      = Some (Node (ElementNode tag)
                   (foldl add_token [] (tokens_of (cell_classes o))) [c])
    ∧ placed s s' (cell_content o) c.
Proof.
  intros o Hc Hcell Hroot Hold Hplain Hok. rewrite fill_cell_eq by done.
  fold o.
  set (n1 := Node (ElementNode tag)
               (foldl add_token [] (tokens_of (cell_classes o))) []).
  set (s1 := <[element cell := n1]> s).
  assert (Hlt : element cell < length s) by (by eapply lookup_lt_Some).
  assert (H1 : set_classes cell o s = Ok (tt, s1))
    by (by eapply set_classes_spec).
  assert (Hs1 : step [] [element cell] s s1) by (by eapply step_insert).
  assert (Hc1 : closed s1) by (by eapply closed_insert).
  assert (Hl1 : length s1 = length s) by apply length_insert.
  assert (Hn1 : s1 !! element cell = Some n1)
    by (by apply list_lookup_insert_eq).
  assert (Hr1 : parentNode s1 (element cell) = None).
  { eapply step_root; [done|done|apply not_elem_of_nil|done]. }
  destruct (append_child_spec cell (cell_content o) s1 n1 [element cell])
    as (s' & c & Hrun & Hc' & Hs' & Hn' & Hpl & _); try done.
  { by apply inclusive_ancestors_root. }
  { apply cell_ok_content in Hok. destruct (cell_content o); try done.
    simpl in *. rewrite andb_true_iff, !bool_decide_eq_true in *.
    rewrite list_elem_of_singleton. lia. }
  exists s', c. split_and!.
  - rewrite (bind_Ok _ _ _ _ _ H1).
    by rewrite (bind_Ok _ _ _ _ _ (append_singleton _ _ _ _ Hrun)).
  - done.
  - eapply (step_seq [] _ _ s s1 s'); done.
  - rewrite Hn'. f_equal.
  - destruct (cell_content o); simpl in *; try rewrite Hl1 in Hpl; done.
Qed.

Lemma shape_of_old old d s r : r < old → shape_of old d s r = SRef r.
Proof.
  intros H. destruct d; simpl; by rewrite (proj2 (Nat.ltb_lt _ _) H).
Qed.

Lemma shape_of_new old d s r n :
  old ≤ r → s !! r = Some n →
  shape_of old d s r
  = match kind n with
    | TextNode data => SText data
    | ElementNode tag =>
        match d with
        | 0 => SRef r
        | S d' => SElement tag (classList n)
                    (map (shape_of old d' s) (childNodes n))
        end
    end.
Proof.
  intros H Hr. destruct d; simpl;
    rewrite (proj2 (Nat.ltb_ge _ _) H), Hr; done.
Qed.

Lemma steal_leaf W sh :
  (∀ tag cl ch, sh ≠ SElement tag cl ch) → steal W sh = sh.
Proof. destruct sh; naive_solver. Qed.

Lemma shape_of_0_step W P s s' old r :
  step W P s s' → r < length s →
  shape_of old 0 s' r = shape_of old 0 s r.
Proof.
  intros Hs Hr. destruct (decide (r < old)) as [Hlt|Hge].
  - by rewrite !shape_of_old.
  - destruct (lookup_lt_is_Some_2 s r Hr) as [n Hn].
    destruct (step_kind _ _ _ _ Hs _ _ Hn) as (n' & Hn' & Hk).
    rewrite (shape_of_new _ _ _ _ n'), (shape_of_new _ _ _ _ n)
      by (done || lia).
    by rewrite Hk.
Qed.

Lemma steal_shape_of_0 W old s r :
  steal W (shape_of old 0 s r) = shape_of old 0 s r.
Proof.
  apply steal_leaf. intros tag cl ch. simpl.
  destruct (r <? old); [done|]. destruct (s !! r) as [n|]; [|done].
  by destruct (kind n).
Qed.

Lemma filter_map_kept {A} (f : A → shape) W (l : list A) (g : A → nat) :
  (∀ c, c ∈ l → kept W (f c) = bool_decide (g c ∉ W)) →
  filter (λ c, kept W c = true) (map f l)
  = map f (filter (λ c, g c ∉ W) l).
Proof.
  induction l as [|c l IH]; intros H; [done|]. simpl.
  rewrite !filter_cons, IH by (intros; apply H; by right).
  rewrite (H c) by left.
  destruct (decide (g c ∉ W)) as [Hg|Hg].
  - by rewrite bool_decide_eq_true_2, decide_True.
  - by rewrite bool_decide_eq_false_2, decide_False.
Qed.

Lemma filter_all {A} (P : A → Prop) `{∀ x, Decision (P x)} (l : list A) :
  (∀ x, x ∈ l → P x) → filter P l = l.
Proof.
  induction l as [|x l IH]; intros HP; [done|].
  rewrite filter_cons_True by (apply HP; left).
  f_equal. apply IH. intros; apply HP; by right.
Qed.

Lemma kept_steal W sh : kept W (steal W sh) = kept W sh.
Proof. by destruct sh. Qed.

Lemma kept_shape_of W old d s r n x :
  movable old s W → s !! x = Some n → r ∈ childNodes n →
  kept W (shape_of old d s r) = bool_decide (r ∉ W).
Proof.
  intros HW Hx Hr. destruct (decide (r < old)) as [Hlt|Hge].
  - by rewrite shape_of_old.
  - assert (HrW : r ∉ W).
    { intros Hin. destruct (HW _ Hin) as [?|Hroot]; [lia|].
      rewrite parentNode_None in Hroot. by eapply Hroot. }
    rewrite (bool_decide_eq_true_2 _ HrW).
    destruct d; simpl;
      rewrite (proj2 (Nat.ltb_ge _ _) (proj1 (Nat.nlt_ge _ _) Hge));
      destruct (s !! r) as [m|]; simpl; try (by rewrite bool_decide_eq_true_2);
      destruct (kind m); simpl; try done; by rewrite bool_decide_eq_true_2.
Qed.

Lemma shape_step_S W P s s' old d r :
  step W P s s' → closed s → movable old s W →
  r < length s → (old ≤ r → r ∉ P) →
  (∀ c, c < length s →
     shape_of old d s' c = steal W (shape_of old d s c)) →
  shape_of old (S d) s' r = steal W (shape_of old (S d) s r).
Proof.
  intros Hs Hc HW Hr HP IH. destruct (decide (r < old)) as [Hlt|Hge].
  - by rewrite !shape_of_old.
  - apply Nat.nlt_ge in Hge.
    destruct (lookup_lt_is_Some_2 s r Hr) as [n Hn].
    pose proof (step_lookup _ _ _ _ _ _ Hs Hn (HP Hge)) as Hn'.
    rewrite (shape_of_new _ _ _ _ _ Hge Hn'), (shape_of_new _ _ _ _ _ Hge Hn).
    rewrite kind_unmoved. destruct (kind n) as [data|tag]; [done|].
    simpl. f_equal. rewrite map_map.
    rewrite (filter_map_kept _ _ _ id).
    + apply map_ext_in. intros c Hin. apply IH.
      apply list_elem_of_In, list_elem_of_filter in Hin as [_ Hin].
      by eapply Hc.
    + intros c Hin. rewrite kept_steal. by eapply kept_shape_of.
Qed.

Lemma shape_step W P s s' old d r :
  step W P s s' → closed s → movable old s W →
  Forall (λ p, p < old) P → r < length s →
  shape_of old d s' r = steal W (shape_of old d s r).
Proof.
  intros Hs Hc HW HP. revert r. induction d as [|d IH]; intros r Hr.
  - rewrite steal_shape_of_0. by eapply shape_of_0_step.
  - eapply shape_step_S; try done.
    intros Hge Hin. rewrite Forall_forall in HP. specialize (HP _ Hin). lia.
Qed.

Lemma shape_step_1 W P s s' old r :
  step W P s s' → closed s → movable old s W →
  r ∉ P → r < length s →
  shape_of old 1 s' r = steal W (shape_of old 1 s r).
Proof.
  intros Hs Hc HW HP Hr. eapply shape_step_S; try done.
  intros c Hlt. rewrite steal_shape_of_0. by eapply shape_of_0_step.
Qed.

Lemma steal_roots W old d s r :
  (∀ w, w ∈ W → parentNode s w = None) →
  steal W (shape_of old d s r) = shape_of old d s r.
Proof.
  intros HW. revert r. induction d as [|d IH]; intros r.
  - apply steal_shape_of_0.
  - destruct (decide (r < old)) as [Hlt|Hge]; [by rewrite shape_of_old|].
    apply Nat.nlt_ge in Hge. destruct (s !! r) as [n|] eqn:Hn.
    + rewrite (shape_of_new _ _ _ _ _ Hge Hn).
      destruct (kind n) as [data|tag]; [done|]. simpl. f_equal.
      rewrite map_map. rewrite (filter_map_kept _ _ _ id).
      * rewrite filter_all; [by apply map_ext|].
        intros c Hc Hin. simpl in *. specialize (HW _ Hin).
        rewrite parentNode_None in HW. by eapply HW.
      * intros c Hin. rewrite IH. eapply kept_shape_of; [|done|done].
        intros w Hw. right. by apply HW.
    + simpl. by rewrite (proj2 (Nat.ltb_ge _ _) Hge), Hn.
Qed.

Lemma content_ok_moved old anc v w :
  content_ok old anc v = true → w ∈ moved v → w < old ∧ w ∉ anc.
Proof.
  destruct v; simpl; try (by intros _ ?%elem_of_nil).
  rewrite andb_true_iff, !bool_decide_eq_true, list_elem_of_singleton.
  by intros [??] ->.
Qed.

Lemma cell_ok_spliced old anc o w :
  cell_ok old anc o = true → w ∈ spliced_cell o → w < old ∧ w ∉ anc.
Proof. intros H. apply content_ok_moved. by apply cell_ok_content. Qed.

Lemma cells_ok_spliced old anc os w :
  Forall (λ o, cell_ok old anc o = true) os →
  w ∈ os ≫= spliced_cell → w < old ∧ w ∉ anc.
Proof.
  intros H Hw. apply list_elem_of_bind in Hw as (o & Hw & Ho).
  rewrite Forall_forall in H. by eapply cell_ok_spliced; [apply H|].
Qed.

Lemma movable_old old s W : (∀ w, w ∈ W → w < old) → movable old s W.
Proof. intros H w Hw. left. by apply H. Qed.

Lemma placed_shape old anc s s' s'' v c :
  placed s s' v c → content_ok old anc v = true → old ≤ length s →
  (∀ n, s' !! c = Some n → ∃ n', s'' !! c = Some n' ∧ kind n' = kind n) →
  shape_of old 0 s'' c = content_shape v.
Proof.
  intros Hpl Hok Hold Hk.
  assert (Hleaf : (c = length s ∧ length s' = S (length s)
                   ∧ s' !! c = Some (Node (TextNode (text_of v)) [] [])) →
                  shape_of old 0 s'' c = SText (text_of v)).
  { intros (-> & _ & Hc). destruct (Hk _ Hc) as (n' & Hn' & Hkn).
    rewrite (shape_of_new _ _ _ _ _ Hold Hn'). by rewrite Hkn. }
  destruct v; try (by apply Hleaf).
  destruct Hpl as [-> _]. simpl in Hok.
  rewrite andb_true_iff, !bool_decide_eq_true in Hok.
  apply (shape_of_old old 0). tauto.
Qed.

Lemma append_cell_spec tr row col s trn old anc :
  let o := own_property (name col) row in
  closed s → old ≤ element tr → s !! element tr = Some trn →
  is_element trn = true → parentNode s (element tr) = None →
  plain_record row = true → cell_ok old anc o = true →
  ∃ s', append_cell tr row col s = Ok (tt, s') ∧ closed s'
    ∧ step (spliced_cell o) [element tr] s s'
    ∧ s' !! element tr
      = Some (push_child (length s) (unmoved (spliced_cell o) trn))
    ∧ shape_of old 1 s' (length s) = expected_cell o
    ∧ length s < length s'
    ∧ parentNode s' (element tr) = None.
Proof.
  intros o Hc Hold Htr Hel Hroot Hplain Hok.
  set (cell := length s). set (td := Node (ElementNode "td") [] []).
  set (s1 := s ++ [td]).
  assert (Htrlt : element tr < length s) by (by eapply lookup_lt_Some).
  assert (HW : ∀ w, w ∈ spliced_cell o → w < old ∧ w ∉ anc)
    by (intros w; by apply cell_ok_spliced).
  assert (Hc1 : closed s1) by (by apply closed_alloc).
  assert (Hs1 : step [] [] s s1) by (by apply step_alloc).
  assert (Hl1 : length s1 = S (length s))
    by (unfold s1; rewrite length_app; simpl; lia).
  assert (Hcell1 : s1 !! cell = Some td) by apply lookup_alloc.
  assert (Hroot1 : parentNode s1 cell = None).
  { unfold s1. rewrite parentNode_alloc by done.
    by apply parentNode_fresh. }
  assert (Htr1 : s1 !! element tr = Some trn)
    by (unfold s1; by rewrite lookup_app_l).
  assert (Hrtr1 : parentNode s1 (element tr) = None).
  { unfold s1. by rewrite parentNode_alloc. }
  destruct (fill_cell_spec (Wrapper cell) row col s1 "td" old anc)
    as (s2 & c & Hrun2 & Hc2 & Hs2 & Hcell2 & Hpl); try done.
  { simpl. unfold cell. lia. }
  fold o in Hs2, Hcell2, Hpl. simpl in Hs2, Hcell2.
  assert (Hl2 : length s1 ≤ length s2) by apply Hs2.
  assert (Htr2 : s2 !! element tr = Some (unmoved (spliced_cell o) trn)).
  { eapply step_lookup; [done|done|].
    rewrite list_elem_of_singleton. unfold cell. lia. }
  assert (Hrtr2 : parentNode s2 (element tr) = None).
  { eapply step_root; [done|lia| |done].
    intros Hin. apply HW in Hin. lia. }
  assert (Hrcell2 : parentNode s2 cell = None).
  { eapply step_root; [done|lia| |done].
    intros Hin. apply HW in Hin. unfold cell in Hin. lia. }
  destruct (append_child_spec tr (VWrapper (Wrapper cell)) s2 _ [element tr]
              Hc2 Htr2)
    as (s3 & c' & Hrun3 & Hc3 & Hs3 & Htr3 & [-> Hl3] & _).
  { done. }
  { by apply inclusive_ancestors_root. }
  { simpl. rewrite andb_true_iff, !bool_decide_eq_true.
    rewrite list_elem_of_singleton. unfold cell. lia. }
  simpl in Hs3, Htr3.
  exists s3. split_and!.
  - unfold append_cell.
    rewrite (bind_Ok _ _ _ _ _ (new_ElementWrapper_eq "td" s)).
    fold s1 cell td. rewrite (bind_Ok _ _ _ _ _ Hrun2).
    by rewrite (bind_Ok _ _ _ _ _ (append_singleton _ _ _ _ Hrun3)).
  - done.
  - eapply step_weaken; [done| |..].
    + eapply step_trans; [exact Hs1|]. eapply step_trans; [exact Hs2|exact Hs3].
    + intros x Hx. simpl. rewrite elem_of_app, list_elem_of_singleton.
      unfold cell. split; [intros [?|?]; [done|lia]|tauto].
    + intros x Hx. simpl. rewrite !elem_of_cons. unfold cell.
      intros [?|[?|?]]; [lia|by left|by apply elem_of_nil in H].
  - rewrite Htr3. f_equal. f_equal. rewrite unmoved_app.
    apply unmoved_ext. intros x Hx. rewrite elem_of_app, list_elem_of_singleton.
    specialize (Hc _ _ _ Htr Hx). unfold cell.
    split; [intros [?|?]; [done|lia]|tauto].
  - rewrite (shape_step_1 [cell] [element tr] s2 s3); try done.
    + rewrite steal_roots.
      * assert (Hge : old ≤ cell) by (unfold cell; lia).
        rewrite (shape_of_new _ _ _ _ _ Hge Hcell2).
        simpl. unfold expected_cell. f_equal. f_equal.
        eapply placed_shape; [done|by apply cell_ok_content|lia|eauto].
      * intros w Hw. apply list_elem_of_singleton in Hw. by subst.
    + intros w Hw. apply list_elem_of_singleton in Hw. subst. by right.
    + rewrite list_elem_of_singleton. unfold cell. lia.
    + unfold cell. lia.
  - lia.
  - eapply step_root; [done|lia| |done].
    rewrite list_elem_of_singleton. unfold cell. lia.
Qed.

Arguments shape_of : simpl never.

Lemma for_of_cons {A} (x : A) xs (body : A → M unit) s s1 :
  body x s = Ok (tt, s1) → for_of (x :: xs) body s = for_of xs body s1.
Proof. intros H. simpl. by rewrite (bind_Ok _ _ _ _ _ H). Qed.

(** The children of a node that has lost [W] and gained [c], then lost
    [W'] and gained [cs]. *)
Lemma grown_twice W W' n c cs :
  c ∉ W' →
  set_childNodes (childNodes (unmoved W' (push_child c (unmoved W n))) ++ cs)
                 (push_child c (unmoved W n))
  = set_childNodes (childNodes (unmoved (W ++ W') n) ++ c :: cs) n.
Proof.
  intros Hc. destruct n as [k cl cn].
  unfold set_childNodes, push_child, unmoved.
  simpl. f_equal. rewrite filter_app, list_filter_filter.
  rewrite filter_cons_True, filter_nil by done.
  rewrite <- app_assoc. simpl. f_equal. apply list_filter_iff.
  intros x. rewrite elem_of_app. tauto.
Qed.

Lemma expected_cells_cons o os :
  expected_cells (o :: os)
  = steal (os ≫= spliced_cell) (expected_cell o) :: expected_cells os.
Proof. done. Qed.

Lemma expected_rows_cons hs row rows :
  expected_rows hs (row :: rows)
  = steal (rows ≫= spliced_row hs)
          (SElement "tr" [] (expected_cells (row_cells hs row)))
    :: expected_rows hs rows.
Proof. done. Qed.

Lemma row_cells_cons col cols row :
  row_cells (col :: cols) row
  = own_property (name col) row :: row_cells cols row.
Proof. done. Qed.

Lemma cells_loop tr row old anc cols : ∀ s trn,
  closed s → old ≤ element tr → s !! element tr = Some trn →
  is_element trn = true → parentNode s (element tr) = None →
  plain_record row = true →
  Forall (λ o, cell_ok old anc o = true) (row_cells cols row) →
  ∃ s' cells, for_of cols (append_cell tr row) s = Ok (tt, s') ∧ closed s'
    ∧ step (row_cells cols row ≫= spliced_cell) [element tr] s s'
    ∧ s' !! element tr
      = Some (set_childNodes
                (childNodes (unmoved (row_cells cols row ≫= spliced_cell) trn)
                 ++ cells) trn)
    ∧ map (shape_of old 1 s') cells = expected_cells (row_cells cols row)
    ∧ Forall (λ c, length s ≤ c) cells
    ∧ length s ≤ length s'
    ∧ parentNode s' (element tr) = None.
Proof.
  induction cols as [|col cols IH];
    intros s trn Hc Hold Htr Hel Hroot Hplain Hok.
  - exists s, []. split_and!; try done.
    + eapply step_grow; [apply step_refl|by intros ? ?%elem_of_nil].
    + change (row_cells [] row ≫= spliced_cell) with (@nil nat).
      by rewrite unmoved_nil, app_nil_r, set_childNodes_id.
  - rewrite row_cells_cons in *. apply Forall_cons in Hok as [Ho Hos].
    set (o := own_property (name col) row) in *.
    destruct (append_cell_spec tr row col s trn old anc
                Hc Hold Htr Hel Hroot Hplain Ho)
      as (s1 & Hrun1 & Hc1 & Hs1 & Htr1 & Hsh1 & Hl1 & Hroot1).
    fold o in Hs1, Htr1, Hsh1.
    destruct (IH s1 _ Hc1 Hold Htr1) as (s' & cells & Hrun & Hc' & Hs' & Htr'
      & Hsh' & Hfresh & Hl' & Hroot'); [done|done|done|done|].
    set (W' := row_cells cols row ≫= spliced_cell) in *.
    assert (HW' : ∀ w, w ∈ W' → w < old ∧ w ∉ anc)
      by (intros w; by apply cells_ok_spliced).
    assert (Htrlt : element tr < length s) by (by eapply lookup_lt_Some).
    exists s', (length s :: cells). split_and!.
    + by rewrite (for_of_cons _ _ _ _ _ Hrun1).
    + done.
    + rewrite bind_cons. by eapply step_seq.
    + rewrite Htr'. f_equal. rewrite bind_cons. fold W'.
      apply grown_twice. intros Hin. apply HW' in Hin. lia.
    + rewrite expected_cells_cons, map_cons. fold W'. f_equal; [|done].
      rewrite (shape_step_1 W' [element tr] s1 s'); try done.
      * by rewrite Hsh1.
      * apply movable_old. intros w Hw. by apply HW'.
      * rewrite list_elem_of_singleton. lia.
    + constructor; [done|]. eapply Forall_impl; [done|]. simpl. lia.
    + lia.
    + done.
Qed.

Lemma append_row_spec this row s bn old anc :
  closed s → old ≤ length s → element (tbody this) < old →
  s !! element (tbody this) = Some bn → is_element bn = true →
  inclusive_ancestors (length s) s (element (tbody this)) = Some anc →
  row_ok old anc (headings this) row = true →
  ∃ s', append_row this row s = Ok (tt, s') ∧ closed s'
    ∧ step (spliced_row (headings this) row) [element (tbody this)] s s'
    ∧ s' !! element (tbody this)
      = Some (push_child (length s)
                (unmoved (spliced_row (headings this) row) bn))
    ∧ shape_of old 2 s' (length s)
      = SElement "tr" [] (expected_cells (row_cells (headings this) row))
    ∧ inclusive_ancestors (length s') s' (element (tbody this)) = Some anc
    ∧ length s < length s'.
Proof.
  intros Hc Hold Hbold Hb Hel Ha Hok.
  set (body := element (tbody this)) in *.
  set (tr := length s). set (trn := Node (ElementNode "tr") [] []).
  set (s1 := s ++ [trn]). set (W := spliced_row (headings this) row).
  unfold row_ok in Hok. apply andb_true_iff in Hok as [Hplain Hok].
  assert (Hoks : Forall (λ o, cell_ok old anc o = true)
                        (row_cells (headings this) row)).
  { rewrite forallb_forall in Hok.
    apply Forall_forall. intros o Ho. apply Hok. by apply list_elem_of_In. }
  assert (HW : ∀ w, w ∈ W → w < old ∧ w ∉ anc)
    by (intros w; by apply cells_ok_spliced).
  assert (Hblt : body < length s) by lia.
  assert (Hanc : Forall (λ a, a < length s) anc)
    by (by eapply inclusive_ancestors_lt).
  assert (Hc1 : closed s1) by (by apply closed_alloc).
  assert (Hs1 : step [] [] s s1) by (by apply step_alloc).
  assert (Hl1 : length s1 = S (length s))
    by (unfold s1; rewrite length_app; simpl; lia).
  assert (Htr1 : s1 !! tr = Some trn) by apply lookup_alloc.
  assert (Hroot1 : parentNode s1 tr = None).
  { unfold s1. rewrite parentNode_alloc by done. by apply parentNode_fresh. }
  assert (Hb1 : s1 !! body = Some bn) by (unfold s1; by rewrite lookup_app_l).
  assert (Hge : old ≤ tr) by (unfold tr; lia).
  destruct (cells_loop (Wrapper tr) row old anc (headings this) s1 trn
              Hc1 Hge Htr1 eq_refl Hroot1 Hplain Hoks)
    as (s2 & cells & Hrun2 & Hc2 & Hs2 & Htr2 & Hsh2 & Hfresh & Hl2 & Hroot2).
  simpl in Hs2, Htr2, Hroot2. fold W in Hs2, Htr2.
  assert (Hb2 : s2 !! body = Some (unmoved W bn)).
  { eapply step_lookup; [done|done|].
    rewrite list_elem_of_singleton. unfold tr. lia. }
  assert (Ha2 : inclusive_ancestors (length s2) s2 body = Some anc).
  { eapply (step_chain W); [exact Hs2| |lia|intros w Hw; by apply HW].
    eapply (step_chain []); [exact Hs1| |lia|by intros w ?%elem_of_nil].
    eapply inclusive_ancestors_mono; [done|lia]. }
  assert (Htranc : tr ∉ anc).
  { intros Hin. rewrite Forall_forall in Hanc. apply Hanc in Hin.
    unfold tr in Hin. lia. }
  destruct (append_child_spec (tbody this) (VWrapper (Wrapper tr)) s2 _ anc
              Hc2 Hb2)
    as (s3 & c' & Hrun3 & Hc3 & Hs3 & Hb3 & [-> Hl3] & Ha3).
  { done. }
  { done. }
  { simpl. rewrite andb_true_iff, !bool_decide_eq_true. split; [lia|done]. }
  simpl in Hs3, Hb3. fold body in Hs3, Hb3, Ha3.
  exists s3. split_and!.
  - unfold append_row.
    rewrite (bind_Ok _ _ _ _ _ (new_ElementWrapper_eq "tr" s)).
    fold s1 tr trn. rewrite (bind_Ok _ _ _ _ _ Hrun2).
    by rewrite (bind_Ok _ _ _ _ _ (append_singleton _ _ _ _ Hrun3)).
  - done.
  - eapply step_weaken; [done| |..].
    + eapply step_trans; [exact Hs1|]. eapply step_trans; [exact Hs2|exact Hs3].
    + intros x Hx. simpl. rewrite elem_of_app, list_elem_of_singleton.
      unfold tr. split; [intros [?|?]; [done|lia]|tauto].
    + intros x Hx. simpl. rewrite !elem_of_cons. unfold tr.
      intros [?|[?|?]]; [lia|by left|by apply elem_of_nil in H].
  - rewrite Hb3. f_equal. f_equal. rewrite unmoved_app.
    apply unmoved_ext. intros x Hx. rewrite elem_of_app, list_elem_of_singleton.
    specialize (Hc _ _ _ Hb Hx). unfold tr.
    split; [intros [?|?]; [done|lia]|tauto].
  - rewrite (shape_step [tr] [body] s2 s3); try done.
    + rewrite steal_roots.
      * rewrite (shape_of_new _ _ _ _ _ Hge Htr2). simpl.
        by rewrite Hsh2.
      * intros w Hw. apply list_elem_of_singleton in Hw. by subst.
    + intros w Hw. apply list_elem_of_singleton in Hw. subst. by right.
    + by constructor.
    + unfold tr. lia.
  - done.
  - lia.
Qed.

Lemma rows_loop this old anc rows : ∀ s bn,
  closed s → old ≤ length s → element (tbody this) < old →
  s !! element (tbody this) = Some bn → is_element bn = true →
  inclusive_ancestors (length s) s (element (tbody this)) = Some anc →
  Forall (λ row, row_ok old anc (headings this) row = true) rows →
  ∃ s' trs, for_of rows (append_row this) s = Ok (tt, s') ∧ closed s'
    ∧ step (rows ≫= spliced_row (headings this)) [element (tbody this)] s s'
    ∧ s' !! element (tbody this)
      = Some (set_childNodes
                (childNodes
                   (unmoved (rows ≫= spliced_row (headings this)) bn)
                 ++ trs) bn)
    ∧ map (shape_of old 2 s') trs = expected_rows (headings this) rows
    ∧ Forall (λ r, length s ≤ r) trs
    ∧ length s ≤ length s'
    ∧ inclusive_ancestors (length s') s' (element (tbody this)) = Some anc.
Proof.
  induction rows as [|row rows IH]; intros s bn Hc Hold Hbold Hb Hel Ha Hok.
  - exists s, []. split_and!; try done.
    + eapply step_grow; [apply step_refl|by intros ? ?%elem_of_nil].
    + change ([] ≫= spliced_row (headings this)) with (@nil nat).
      by rewrite unmoved_nil, app_nil_r, set_childNodes_id.
  - apply Forall_cons in Hok as [Hrow Hrows].
    destruct (append_row_spec this row s bn old anc
                Hc Hold Hbold Hb Hel Ha Hrow)
      as (s1 & Hrun1 & Hc1 & Hs1 & Hb1 & Hsh1 & Ha1 & Hl1).
    assert (Hold1 : old ≤ length s1) by lia.
    destruct (IH s1 _ Hc1 Hold1 Hbold Hb1) as (s' & trs & Hrun & Hc' & Hs' & Hb'
      & Hsh' & Hfresh & Hl' & Ha'); [done|done|done|].
    set (W' := rows ≫= spliced_row (headings this)) in *.
    assert (HW' : ∀ w, w ∈ W' → w < old ∧ w ∉ anc).
    { intros w Hw. apply list_elem_of_bind in Hw as (r & Hw & Hr).
      rewrite Forall_forall in Hrows. specialize (Hrows _ Hr).
      unfold row_ok in Hrows. apply andb_true_iff in Hrows as [_ Hrows].
      rewrite forallb_forall in Hrows.
      eapply cells_ok_spliced; [|exact Hw]. apply Forall_forall.
      intros o Ho. apply Hrows. by apply list_elem_of_In. }
    exists s', (length s :: trs). split_and!.
    + by rewrite (for_of_cons _ _ _ _ _ Hrun1).
    + done.
    + rewrite bind_cons. by eapply step_seq.
    + rewrite Hb'. f_equal. rewrite bind_cons. fold W'.
      apply grown_twice. intros Hin. apply HW' in Hin. lia.
    + rewrite expected_rows_cons, map_cons. fold W'. f_equal; [|done].
      rewrite (shape_step W' [element (tbody this)] s1 s'); try done.
      * by rewrite Hsh1.
      * apply movable_old. intros w Hw. by apply HW'.
      * by constructor.
    + constructor; [done|]. eapply Forall_impl; [done|]. simpl. lia.
    + lia.
    + done.
Qed.

Lemma find_parent_first x s i p pn :
  s !! p = Some pn → x ∈ childNodes pn →
  (∀ j n, j < p → s !! j = Some n → x ∉ childNodes n) →
  find_parent x s i = Some (i + p).
Proof.
  revert i p. induction s as [|m s IH]; intros i p Hp Hx Hfirst; [done|].
  simpl. destruct p as [|p]; simpl in Hp.
  - injection Hp as ->. rewrite bool_decide_eq_true_2 by done.
    f_equal. lia.
  - rewrite bool_decide_eq_false_2 by (apply (Hfirst 0); [lia|done]).
    rewrite (IH (S i) p); [f_equal; lia|done|done|].
    intros j n Hj Hn. apply (Hfirst (S j)); [lia|done].
Qed.

Lemma parentNode_first x s p pn :
  s !! p = Some pn → x ∈ childNodes pn →
  (∀ j n, j < p → s !! j = Some n → x ∉ childNodes n) →
  parentNode s x = Some p.
Proof. intros. unfold parentNode. by erewrite find_parent_first. Qed.

Lemma headings_loop_spec headrow specs : ∀ i by_name hs s hn,
  closed s → s !! element headrow = Some hn → is_element hn = true →
  parentNode s (element headrow) = None →
  ∃ s', headings_loop headrow specs i by_name hs s
        = Ok ((foldl index_heading by_name (made_headings specs i (length s)),
               hs ++ made_headings specs i (length s)), s')
    ∧ closed s' ∧ step [] [element headrow] s s'
    ∧ parentNode s' (element headrow) = None.
Proof.
  induction specs as [|spec specs IH]; intros i by_name hs s hn Hc Hh Hel Hroot.
  - exists s. simpl. rewrite app_nil_r. split_and!; try done.
    eapply step_grow; [apply step_refl|by intros ? ?%elem_of_nil].
  - set (t := length s). set (th := S (length s)).
    set (text := if truthy (spec_label spec)
                 then toString (spec_label spec) else "").
    set (s1 := s ++ [Node (TextNode text) [] []]).
    set (s2 := s1 ++ [Node (ElementNode "th") [] []]).
    assert (Hhlt : element headrow < length s) by (by eapply lookup_lt_Some).
    assert (Hc1 : closed s1) by (by apply closed_alloc).
    assert (Hc2 : closed s2) by (by apply closed_alloc).
    assert (Hl1 : length s1 = S (length s))
      by (unfold s1; rewrite length_app; simpl; lia).
    assert (Hl2 : length s2 = S (S (length s)))
      by (unfold s2; rewrite length_app; simpl; lia).
    assert (Hs1 : step [] [] s s1) by (by apply step_alloc).
    assert (Hs2 : step [] [] s1 s2) by (by apply step_alloc).
    assert (Hth2 : s2 !! th = Some (Node (ElementNode "th") [] [])).
    { unfold s2, th. rewrite <- Hl1. apply lookup_alloc. }
    assert (Hrth2 : parentNode s2 th = None).
    { unfold s2. rewrite parentNode_alloc by done.
      apply parentNode_fresh; [done|]. unfold th. lia. }
    destruct (append_child_spec (Wrapper th) (VWrapper (Wrapper t)) s2 _ [th]
                Hc2 Hth2)
      as (s3 & c & Hrun3 & Hc3 & Hs3 & Hth3 & [-> Hl3] & _).
    { done. }
    { by apply inclusive_ancestors_root. }
    { simpl. rewrite andb_true_iff, !bool_decide_eq_true.
      rewrite list_elem_of_singleton. unfold t, th. lia. }
    simpl in Hs3, Hth3.
    assert (Hh2 : s2 !! element headrow = Some hn).
    { unfold s2, s1.
      rewrite !lookup_app_l; [done|lia|rewrite length_app; simpl; lia]. }
    assert (Hh3 : s3 !! element headrow = Some hn).
    { rewrite (step_lookup _ _ _ _ _ _ Hs3 Hh2)
        by (rewrite list_elem_of_singleton; unfold th; lia).
      f_equal. rewrite <- (unmoved_nil hn) at 2. apply unmoved_ext.
      intros x Hx. rewrite list_elem_of_singleton.
      specialize (Hc _ _ _ Hh Hx). unfold t.
      split; [lia|by intros ?%elem_of_nil]. }
    assert (Hs03 : step [] [] s s3).
    { eapply step_weaken; [exact Hc| |..].
      - eapply step_trans; [exact Hs1|].
        eapply step_trans; [exact Hs2|exact Hs3].
      - intros x Hx. simpl. rewrite list_elem_of_singleton. unfold t.
        split; [lia|by intros ?%elem_of_nil].
      - intros x Hx. simpl. rewrite list_elem_of_singleton. unfold th. lia. }
    assert (Hroot3 : parentNode s3 (element headrow) = None).
    { eapply step_root; [exact Hs03|done|apply not_elem_of_nil|done]. }
    destruct (append_child_spec headrow (VWrapper (Wrapper th)) s3 hn
                [element headrow] Hc3 Hh3 Hel)
      as (s4 & c & Hrun4 & Hc4 & Hs4 & Hh4 & [-> Hl4] & _).
    { by apply inclusive_ancestors_root. }
    { simpl. rewrite andb_true_iff, !bool_decide_eq_true.
      rewrite list_elem_of_singleton. unfold th. lia. }
    simpl in Hs4, Hh4.
    assert (Hroot4 : parentNode s4 (element headrow) = None).
    { eapply step_root; [exact Hs4|lia| |done].
      rewrite list_elem_of_singleton. unfold th. lia. }
    destruct (IH (S i)
                (<[spec_name spec :=
                     Heading (spec_name spec) i (Wrapper t) (Wrapper th)]>
                   by_name)
                (hs ++ [Heading (spec_name spec) i (Wrapper t) (Wrapper th)])
                s4 _ Hc4 Hh4 Hel Hroot4)
      as (s' & Hrun & Hc' & Hs' & Hroot').
    assert (Hl04 : length s4 = S (S (length s))) by lia.
    exists s'. split_and!.
    + simpl. unfold new_TextNodeWrapper, createTextNode.
      unfold bind at 1 2. unfold ret at 1. fold text s1.
      rewrite (bind_Ok _ _ _ _ _ (new_ElementWrapper_eq "th" s1)).
      fold s2. rewrite Hl1. fold th.
      rewrite (bind_Ok _ _ _ _ _ (append_singleton _ _ _ _ Hrun3)).
      rewrite (bind_Ok _ _ _ _ _ (append_singleton _ _ _ _ Hrun4)).
      unfold t, th in *. rewrite Hrun, Hl04. unfold index_heading at 2. simpl.
      by rewrite <- app_assoc.
    + done.
    + eapply step_weaken; [exact Hc| |..].
      * eapply step_trans; [exact Hs03|].
        eapply step_trans; [exact Hs4|exact Hs'].
      * intros x Hx. simpl. rewrite list_elem_of_singleton. unfold th.
        split; [lia|by intros ?%elem_of_nil].
      * intros x Hx. simpl. rewrite !elem_of_cons. intros [?|[?|?]]; auto.
    + done.
Qed.

Lemma length_alloc (s : list node) n : length (s ++ [n]) = S (length s).
Proof. rewrite length_app. simpl. lia. Qed.

Lemma lookup_alloc_old (s : list node) n x m :
  s !! x = Some m → (s ++ [n]) !! x = Some m.
Proof. intros H. rewrite lookup_app_l; [done|]. by eapply lookup_lt_Some. Qed.

Lemma parentNode_alloc_fresh s n :
  closed s → childNodes n = [] → parentNode (s ++ [n]) (length s) = None.
Proof.
  intros Hc Hn. rewrite parentNode_alloc by done. by apply parentNode_fresh.
Qed.

Lemma step_self_lookup s s' x n :
  closed s → step [] [] s s' → s !! x = Some n → s' !! x = Some n.
Proof.
  intros Hc Hs Hx. rewrite (step_lookup _ _ _ _ _ _ Hs Hx).
  - by rewrite unmoved_nil.
  - apply not_elem_of_nil.
Qed.

Lemma unmoved_leaf W k cl : unmoved W (Node k cl []) = Node k cl [].
Proof. unfold unmoved, set_childNodes. simpl. by rewrite filter_nil. Qed.

Lemma new_TableMaker_spec specs s :
  closed s →
  ∃ this s',
    new_TableMaker specs s = Ok (this, s') ∧ closed s'
    ∧ step [] [] s s'
    ∧ table this = Wrapper (length s)
    ∧ tbody this = Wrapper (S (S (length s)))
    ∧ headings this = made_headings specs 0 (4 + length s)
    ∧ headings_by_name this
      = foldl index_heading ∅ (made_headings specs 0 (4 + length s))
    ∧ s' !! S (S (length s)) = Some (Node (ElementNode "tbody") [] [])
    ∧ inclusive_ancestors (length s') s' (S (S (length s)))
      = Some [S (S (length s)); length s].
Proof.
  intros Hc.
  set (n0 := Node (ElementNode "table") [] []).
  set (n1 := Node (ElementNode "thead") [] []).
  set (n2 := Node (ElementNode "tbody") [] []).
  set (n3 := Node (ElementNode "tr") [] []).
  set (s1 := s ++ [n0]). set (s2 := s1 ++ [n1]).
  set (s3 := s2 ++ [n2]). set (s4 := s3 ++ [n3]).
  assert (Hl1 : length s1 = S (length s)) by apply length_alloc.
  assert (Hl2 : length s2 = S (S (length s)))
    by (unfold s2; by rewrite length_alloc, Hl1).
  assert (Hl3 : length s3 = S (S (S (length s))))
    by (unfold s3; by rewrite length_alloc, Hl2).
  assert (Hl4 : length s4 = 4 + (length s))
    by (unfold s4; by rewrite length_alloc, Hl3).
  assert (Hc1 : closed s1) by (by apply closed_alloc).
  assert (Hc2 : closed s2) by (by apply closed_alloc).
  assert (Hc3 : closed s3) by (by apply closed_alloc).
  assert (Hc4 : closed s4) by (by apply closed_alloc).
  assert (Hs04 : step [] [] s s4).
  { apply (step_trans [] [] [] [] s s1 s4); [by apply step_alloc|].
    apply (step_trans [] [] [] [] s1 s2 s4); [by apply step_alloc|].
    apply (step_trans [] [] [] [] s2 s3 s4); by apply step_alloc. }
  assert (Ht4 : s4 !! (length s) = Some n0).
  { unfold s4, s3, s2. do 3 apply lookup_alloc_old. apply lookup_alloc. }
  assert (Hh4 : s4 !! S (length s) = Some n1).
  { unfold s4, s3. do 2 apply lookup_alloc_old. rewrite <- Hl1.
    apply lookup_alloc. }
  assert (Hb4 : s4 !! S (S (length s)) = Some n2).
  { unfold s4. apply lookup_alloc_old. rewrite <- Hl2. apply lookup_alloc. }
  assert (Hr4 : s4 !! S (S (S (length s))) = Some n3).
  { rewrite <- Hl3. apply lookup_alloc. }
  assert (Hroot4 : ∀ x, (length s) ≤ x → parentNode s4 x = None).
  { intros x Hx. unfold s4, s3, s2, s1. rewrite !parentNode_alloc by done.
    by apply parentNode_fresh. }
  assert (Hrootr4 : parentNode s4 (S (S (S (length s)))) = None)
    by (apply Hroot4; lia).
  destruct (headings_loop_spec (Wrapper (S (S (S (length s)))))
              specs 0 ∅ [] s4 n3
              Hc4 Hr4 eq_refl Hrootr4)
    as (s5 & Hrun5 & Hc5 & Hs5 & Hroot5).
  simpl in Hs5, Hroot5. rewrite Hl4 in Hrun5.
  assert (Hl5 : length s4 ≤ length s5) by apply Hs5.
  assert (Hkeep5 : ∀ x k cl, x ≠ S (S (S (length s))) →
                     s4 !! x = Some (Node k cl []) →
                  s5 !! x = Some (Node k cl [])).
  { intros x k cl Hx Hn. rewrite (step_lookup _ _ _ _ _ _ Hs5 Hn).
    - by rewrite unmoved_leaf.
    - by rewrite list_elem_of_singleton. }
  assert (Hr5 : ∃ n3', s5 !! S (S (S (length s))) = Some n3'
                       ∧ is_element n3' = true).
  { destruct (step_kind _ _ _ _ Hs5 _ _ Hr4) as (n' & Hn' & Hk).
    exists n'. split; [done|]. unfold is_element. by rewrite Hk. }
  destruct Hr5 as (n3' & Hr5 & Hel5).
  assert (Hrooth5 : parentNode s5 (S (length s)) = None).
  { eapply step_root; [exact Hs5| |apply not_elem_of_nil|apply Hroot4; lia].
    lia. }
  destruct (append_child_spec (Wrapper (S (length s)))
              (VWrapper (Wrapper (S (S (S (length s))))))
              s5 n1 [S (length s)] Hc5)
    as (s6 & c & Hrun6 & Hc6 & Hs6 & Hh6 & [-> Hl6] & _).
  { simpl. apply Hkeep5; [lia|done]. }
  { done. }
  { by apply inclusive_ancestors_root. }
  { simpl. rewrite andb_true_iff, !bool_decide_eq_true.
    rewrite list_elem_of_singleton. lia. }
  simpl in Hs6, Hh6.
  assert (Ht6 : s6 !! (length s) = Some n0).
  { rewrite (step_lookup _ _ _ _ _ n0 Hs6).
    - f_equal.
    - apply Hkeep5; [lia|done].
    - rewrite list_elem_of_singleton. lia. }
  assert (Hb6 : s6 !! S (S (length s)) = Some n2).
  { rewrite (step_lookup _ _ _ _ _ n2 Hs6).
    - f_equal.
    - apply Hkeep5; [lia|done].
    - rewrite list_elem_of_singleton. lia. }
  assert (Hroott6 : parentNode s6 (length s) = None).
  { eapply step_root; [exact Hs6|lia| |].
    - rewrite list_elem_of_singleton. lia.
    - eapply step_root;
        [exact Hs5|lia|apply not_elem_of_nil|apply Hroot4; lia]. }
  destruct (append_spec (Wrapper (length s))
              [VWrapper (Wrapper (S (length s)));
               VWrapper (Wrapper (S (S (length s))))]
              s6 n0 [(length s)] Hc6 Ht6 eq_refl)
    as (s7 & cs & pn' & Hrun7 & Hc7 & Hs7 & Ht7 & Hk7 & Hcl7 & Hcn7 & Hres
        & Ha7 & _).
  { by apply inclusive_ancestors_root. }
  { repeat constructor; simpl;
      rewrite andb_true_iff, !bool_decide_eq_true, list_elem_of_singleton;
        lia. }
  simpl in Hs7, Ht7, Ha7.
  assert (Hcs : cs = [S (length s); S (S (length s))]).
  { inversion Hres as [|? c1 ? cs1 Hc1' Hres1]; subst.
    inversion Hres1 as [|? c2 ? cs2 Hc2' Hres2]; subst.
    inversion Hres2; subst. simpl in *. by subst. }
  subst cs.
  assert (Hchildren : childNodes pn' = [S (length s); S (S (length s))]).
  { rewrite Hcn7. unfold n0, place. simpl.
    rewrite filter_cons_True, filter_nil by lia. done. }
  assert (Hs07 : step [] [] s s7).
  { eapply step_weaken; [exact Hc| |..].
    - eapply step_trans; [exact Hs04|]. eapply step_trans; [exact Hs5|].
      eapply step_trans; [exact Hs6|exact Hs7].
    - intros x Hx. simpl. rewrite !elem_of_cons. 
      split; [intros [?|[?|[?|?]]]; try lia; done|by intros ?%elem_of_nil].
    - intros x Hx. simpl. rewrite !elem_of_cons. 
      intros [?|[?|[?|?]]]; try lia. done. }
  assert (Hb7 : s7 !! S (S (length s)) = Some n2).
  { rewrite (step_lookup _ _ _ _ _ n2 Hs7).
    - f_equal.
    - done.
    - rewrite list_elem_of_singleton. lia. }
  assert (Hroott7 : parentNode s7 (length s) = None).
  { eapply step_root; [exact Hs7|lia| |done].
    rewrite !elem_of_cons. intros [?|[?|?]]; try lia.
    by apply elem_of_nil in H. }
  assert (Hpb7 : parentNode s7 (S (S (length s))) = Some (length s)).
  { eapply parentNode_first; [exact Ht7| |].
    - rewrite Hchildren. right. left.
    - intros j n Hj Hn Hin.
      destruct (lookup_lt_is_Some_2 s j Hj) as [m Hm].
      rewrite (step_self_lookup _ _ _ _ Hc Hs07 Hm) in Hn. injection Hn as <-.
      specialize (Hc _ _ _ Hm Hin).  lia. }
  eexists (Table _ _ _ _ _ _), s7. split_and!.
  - unfold new_TableMaker.
    rewrite (bind_Ok _ _ _ _ _ (new_ElementWrapper_eq "table" s)). fold n0 s1.
    rewrite (bind_Ok _ _ _ _ _ (new_ElementWrapper_eq "thead" s1)). fold n1 s2.
    rewrite (bind_Ok _ _ _ _ _ (new_ElementWrapper_eq "tbody" s2)). fold n2 s3.
    rewrite (bind_Ok _ _ _ _ _ (new_ElementWrapper_eq "tr" s3)). fold n3 s4.
    rewrite Hl1, Hl2, Hl3. rewrite (bind_Ok _ _ _ _ _ Hrun5).
    rewrite (bind_Ok _ _ _ _ _ (append_singleton _ _ _ _ Hrun6)).
    rewrite (bind_Ok _ _ _ _ _ Hrun7). reflexivity.
  - done.
  - done.
  - done.
  - done.
  - done.
  - done.
  - done.
  - assert (Hl7 : 1 ≤ length s7).
    { apply lookup_lt_Some in Hb7. lia. }
    destruct (length s7) as [|f]; [lia|]. simpl. rewrite Hpb7.
    by rewrite (inclusive_ancestors_root _ _ _ Hroott7).
Qed.

Lemma closed_Forall s :
  closed s ↔ Forall (λ n, Forall (λ c, c < length s) (childNodes n)) s.
Proof.
  rewrite Forall_forall. split.
  - intros Hc n Hn. apply Forall_forall. intros c Hin.
    apply list_elem_of_lookup in Hn as [x Hx]. by eapply Hc.
  - intros H x n c Hx Hin. apply list_elem_of_lookup_2 in Hx.
    specialize (H _ Hx). rewrite Forall_forall in H. by apply H.
Qed.

#[global] Instance closed_dec s : Decision (closed s).
Proof.
  refine (cast_if
    (decide (Forall (λ n, Forall (λ c, c < length s) (childNodes n)) s)));
    by rewrite closed_Forall.
Defined.

Lemma appendRows_eq this rows s :
  appendRows this rows s
  = match for_of rows (append_row this) s with
    | Ok (_, s') => Ok (this, s')
    | Err e => Err e
    end.
Proof.
  unfold appendRows, bind, ret.
  by destruct (for_of rows (append_row this) s) as [[[] s']|e].
Qed.

(** Rows with the same own properties are rendered alike. *)

Lemma own_property_Some key (o : object) v :
  NoDup o.*1 → (key, v) ∈ o → own_property key o = Some v.
Proof.
  induction o as [|[k w] o IH]; intros Hnd Hin; [by apply elem_of_nil in Hin|].
  rewrite fmap_cons in Hnd. apply NoDup_cons in Hnd as [Hk Hnd]. simpl.
  apply elem_of_cons in Hin as [[= <- <-]|Hin].
  - by rewrite String.eqb_refl.
  - destruct (String.eqb k key) eqn:E; [|by apply IH].
    apply String.eqb_eq in E. subst k. destruct Hk.
    apply list_elem_of_fmap. by exists (key, v).
Qed.

Lemma own_property_In key (o : object) v :
  own_property key o = Some v → (key, v) ∈ o.
Proof.
  induction o as [|[k w] o IH]; [done|]. simpl.
  destruct (String.eqb k key) eqn:E.
  - apply String.eqb_eq in E. intros [= ->]. subst. left.
  - intros H. right. by apply IH.
Qed.

Lemma own_property_perm key (o o' : object) :
  NoDup o.*1 → o ≡ₚ o' → own_property key o' = own_property key o.
Proof.
  intros Hnd Hp.
  assert (Hnd' : NoDup o'.*1) by (by rewrite <- Hp).
  destruct (own_property key o) as [v|] eqn:E.
  - apply own_property_Some; [done|]. rewrite <- Hp. by apply own_property_In.
  - destruct (own_property key o') as [v|] eqn:E'; [|done].
    apply own_property_In in E'. rewrite <- Hp in E'.
    by rewrite (own_property_Some _ _ _ Hnd E') in E.
Qed.

Lemma fill_cell_ext cell row row' col s :
  own_property "hasOwnProperty" row' = own_property "hasOwnProperty" row →
  own_property (name col) row' = own_property (name col) row →
  fill_cell cell row' col s = fill_cell cell row col s.
Proof. intros Hm H. unfold fill_cell, hasOwnProperty. by rewrite Hm, H. Qed.

Lemma for_of_ext {A} (xs : list A) (f g : A → M unit) :
  (∀ x s, x ∈ xs → f x s = g x s) → ∀ s, for_of xs f s = for_of xs g s.
Proof.
  induction xs as [|x xs IH]; intros H s; [done|]. simpl. unfold bind.
  rewrite (H x s) by left. destruct (g x s) as [[[] s1]|e]; [|done].
  apply IH. intros y s' Hy. apply H. by right.
Qed.

Lemma append_row_ext this row row' s :
  (∀ key, own_property key row' = own_property key row) →
  append_row this row' s = append_row this row s.
Proof.
  intros H. unfold append_row, bind.
  destruct (new_ElementWrapper "tr" s) as [[tr s1]|e]; [|done].
  rewrite (for_of_ext _ (append_cell tr row') (append_cell tr row)); [done|].
  intros col s' _. unfold append_cell, bind.
  destruct (new_ElementWrapper "td" s') as [[cell s2]|e]; [|done].
  by rewrite (fill_cell_ext _ row row').
Qed.

Lemma appendRows_ext this rows rows' s :
  Forall2 (λ row row', NoDup row.*1 ∧ row ≡ₚ row') rows rows' →
  appendRows this rows' s = appendRows this rows s.
Proof.
  intros H. rewrite !appendRows_eq.
  enough (Heq : for_of rows' (append_row this) s
                = for_of rows (append_row this) s) by (by rewrite Heq).
  revert s. induction H as [|row row' rows rows' [Hnd Hp] _ IH]; intros s.
  - done.
  - simpl. unfold bind. rewrite (append_row_ext this row row').
    + destruct (append_row this row s) as [[[] s1]|e]; [apply IH|done].
    + intros key. by apply own_property_perm.
Qed.

(** The expected rows, by index. *)

Lemma expected_cells_lookup os j o :
  os !! j = Some o →
  expected_cells os !! j
  = Some (steal (drop (S j) os ≫= spliced_cell) (expected_cell o)).
Proof.
  revert j. induction os as [|o' os IH]; intros [|j]; simpl; try done.
  - by intros [= ->].
  - apply IH.
Qed.

Lemma expected_rows_lookup hs rows i row :
  rows !! i = Some row →
  expected_rows hs rows !! i
  = Some (steal (drop (S i) rows ≫= spliced_row hs)
                (SElement "tr" [] (expected_cells (row_cells hs row)))).
Proof.
  revert i. induction rows as [|r rows IH]; intros [|i]; simpl; try done.
  - by intros [= ->].
  - apply IH.
Qed.

Lemma length_expected_cells os : length (expected_cells os) = length os.
Proof. induction os; simpl; by f_equal. Qed.

Lemma length_expected_rows hs rows :
  length (expected_rows hs rows) = length rows.
Proof. induction rows; simpl; by f_equal. Qed.

Lemma length_row_cells hs row : length (row_cells hs row) = length hs.
Proof. unfold row_cells. by rewrite length_map. Qed.

Lemma steal_expected_cell W o :
  ∃ content, steal W (expected_cell o)
    = SElement "td" (foldl add_token [] (tokens_of (cell_classes o))) content.
Proof. unfold expected_cell. simpl. eauto. Qed.

Lemma steal_cells W os :
  filter (λ c, kept W c = true) (map (steal W) (expected_cells os))
  = map (steal W) (expected_cells os).
Proof.
  apply filter_all. intros c Hc. apply list_elem_of_fmap in Hc as (d & -> & Hd).
  apply list_elem_of_lookup in Hd as [j Hj].
  destruct (os !! j) as [o|] eqn:Ho.
  - rewrite (expected_cells_lookup _ _ _ Ho) in Hj. by injection Hj as <-.
  - apply lookup_ge_None in Ho. apply lookup_lt_Some in Hj.
    rewrite length_expected_cells in Hj. lia.
Qed.

Lemma steal_row W os :
  steal W (SElement "tr" [] (expected_cells os))
  = SElement "tr" [] (map (steal W) (expected_cells os)).
Proof. simpl. by rewrite steal_cells. Qed.

Lemma expected_rows_cells hs rows :
  Forall (λ sh, ∃ cells, sh = SElement "tr" [] cells
            ∧ length cells = length hs
            ∧ Forall (λ c, ∃ cl content, c = SElement "td" cl content) cells)
         (expected_rows hs rows).
Proof.
  apply Forall_forall. intros sh Hsh.
  apply list_elem_of_lookup in Hsh as [i Hi].
  destruct (rows !! i) as [row|] eqn:Hrow.
  - rewrite (expected_rows_lookup _ _ _ _ Hrow) in Hi. injection Hi as <-.
    rewrite steal_cells. eexists. split_and!; [done| |].
    + by rewrite length_map, length_expected_cells, length_row_cells.
    + apply Forall_forall. intros c Hc.
      apply list_elem_of_fmap in Hc as (d & -> & Hd).
      apply list_elem_of_lookup in Hd as [j Hj].
      destruct (row_cells hs row !! j) as [o|] eqn:Ho.
      * rewrite (expected_cells_lookup _ _ _ Ho) in Hj. injection Hj as <-.
        simpl. eauto.
      * apply lookup_ge_None in Ho. apply lookup_lt_Some in Hj.
        rewrite length_expected_cells in Hj. lia.
  - apply lookup_ge_None in Hrow. apply lookup_lt_Some in Hi.
    rewrite length_expected_rows in Hi. lia.
Qed.

Lemma shape_of_SElement_inv old d s r tag cl ch :
  shape_of old (S d) s r = SElement tag cl ch →
  ∃ n, s !! r = Some n ∧ kind n = ElementNode tag ∧ classList n = cl
       ∧ ch = map (shape_of old d s) (childNodes n).
Proof.
  unfold shape_of; fold shape_of. destruct (r <? old); [done|].
  destruct (s !! r) as [n|]; [|done]. destruct (kind n) eqn:Hk; [done|].
  intros [= <- <- <-]. eauto.
Qed.

(** Only the names of the headings matter to the rows. *)






Lemma rows_added this rows s bn anc :
  closed s →
  s !! element (tbody this) = Some bn → is_element bn = true →
  inclusive_ancestors (length s) s (element (tbody this)) = Some anc →
  Forall (λ row, row_ok (length s) anc (headings this) row = true) rows →
  ∃ s' trs,
    appendRows this rows s = Ok (this, s')
    ∧ closed s'
    ∧ step (rows ≫= spliced_row (headings this)) [element (tbody this)] s s'
    ∧ childNodes_of s' (element (tbody this))
      = filter (λ c, c ∉ rows ≫= spliced_row (headings this)) (childNodes bn)
        ++ trs
    ∧ length trs = length rows
    ∧ Forall (λ tr, length s ≤ tr) trs
    ∧ map (shape_of (length s) 2 s') trs = expected_rows (headings this) rows.
Proof.
  intros Hc Hb Hel Ha Hok.
  assert (Hbold : element (tbody this) < length s)
    by (by eapply lookup_lt_Some).
  destruct (rows_loop this (length s) anc rows s bn
              Hc (le_n _) Hbold Hb Hel Ha Hok)
    as (s' & trs & Hrun & Hc' & Hs' & Hb' & Hsh & Hfresh & Hl & Ha').
  exists s', trs. split_and!; try done.
  - by rewrite appendRows_eq, Hrun.
  - unfold childNodes_of. by rewrite Hb'.
  - rewrite <- (length_expected_rows (headings this) rows), <- Hsh.
    by rewrite length_map.
Qed.

(** C1 (as amended).  For every heading sequence (the columns of [this])
    and every batch [rows] of row records that can be rendered ([row_ok]:
    the record has no own property named [hasOwnProperty], a decorated
    value's classes are tokens, and no content is a plain object or a
    wrapper on the table body or one of its ancestors), [appendRows] adds
    exactly one new [tr] per record to the end of the body, in argument
    order; every added row has exactly one [td] per heading, in the
    headings' order, whatever the order of the keys in the records (a
    record and a permutation of it give the same result). *)
Theorem appendRows_adds_rows this rows s bn anc :
  closed s →
  s !! element (tbody this) = Some bn → is_element bn = true →
  inclusive_ancestors (length s) s (element (tbody this)) = Some anc →
  Forall (λ row, row_ok (length s) anc (headings this) row = true) rows →
  ∃ s' trs,
    appendRows this rows s = Ok (this, s')
    ∧ childNodes_of s' (element (tbody this))
      = filter (λ c, c ∉ rows ≫= spliced_row (headings this)) (childNodes bn)
        ++ trs
    ∧ length trs = length rows
    ∧ Forall (λ tr, length s ≤ tr) trs
    ∧ map (shape_of (length s) 2 s') trs = expected_rows (headings this) rows
    ∧ Forall (λ sh, ∃ cells, sh = SElement "tr" [] cells
                ∧ length cells = length (headings this)
                ∧ Forall (λ c, ∃ cl content, c = SElement "td" cl content)
                         cells)
             (expected_rows (headings this) rows)
    ∧ ∀ rows', Forall2 (λ row row', NoDup row.*1 ∧ row ≡ₚ row') rows rows' →
               appendRows this rows' s = appendRows this rows s.
Proof.
  intros Hc Hb Hel Ha Hok.
  destruct (rows_added this rows s bn anc Hc Hb Hel Ha Hok)
    as (s' & trs & Hrun & _ & _ & Hcn & Hlen & Hfresh & Hsh).
  exists s', trs. split_and!; try done.
  - apply expected_rows_cells.
  - intros rows'. apply appendRows_ext.
Qed.

Lemma row_ok_plain old anc hs row :
  row_ok old anc hs row = true → plain_record row = true.
Proof. unfold row_ok. by intros [? _]%andb_true_iff. Qed.

Lemma steal_expected_cell_twice W W' o :
  steal W (steal W' (expected_cell o))
  = SElement "td" (foldl add_token [] (tokens_of (cell_classes o)))
      (filter (λ c, kept (W' ++ W) c = true)
              [content_shape (cell_content o)]).
Proof.
  unfold expected_cell, content_shape.
  destruct (cell_content o) as [| | | | | | |w]; try done.
  simpl. f_equal.
  destruct (decide (element w ∈ W')) as [H'|H'].
  - rewrite (filter_cons_False _ (SRef _)); [|simpl; case_bool_decide; done].
    rewrite filter_cons_False; [done|]. simpl.
    rewrite bool_decide_eq_false_2; [done|].
    rewrite elem_of_app. tauto.
  - rewrite (filter_cons_True _ (SRef _));
      [|simpl; by apply bool_decide_eq_true].
    simpl. destruct (decide (element w ∈ W)) as [H|H].
    + rewrite !filter_cons_False; [done| |].
      * simpl. rewrite bool_decide_eq_false_2; [done|].
        rewrite elem_of_app. tauto.
      * simpl. rewrite bool_decide_eq_false_2; [done|tauto].
    + rewrite !filter_cons_True; [done| |].
      * simpl. apply bool_decide_eq_true. rewrite elem_of_app. tauto.
      * simpl. by apply bool_decide_eq_true.
Qed.

(** The cell of row [i] and column [j] after [appendRows]. *)
Lemma cell_rendered this rows s bn anc i j row h :
  closed s →
  s !! element (tbody this) = Some bn → is_element bn = true →
  inclusive_ancestors (length s) s (element (tbody this)) = Some anc →
  Forall (λ row, row_ok (length s) anc (headings this) row = true) rows →
  rows !! i = Some row → headings this !! j = Some h →
  ∃ s' trs tr td,
    appendRows this rows s = Ok (this, s')
    ∧ childNodes_of s' (element (tbody this))
      = filter (λ c, c ∉ rows ≫= spliced_row (headings this))
               (childNodes bn) ++ trs
    ∧ trs !! i = Some tr
    ∧ childNodes_of s' tr !! j = Some td
    ∧ shape_of (length s) 1 s' td
      = SElement "td"
          (foldl add_token []
             (tokens_of (cell_classes (own_property (name h) row))))
          (filter
             (λ c, kept (taken_later (headings this) rows i row j) c = true)
             [content_shape (cell_content (own_property (name h) row))]).
Proof.
  intros Hc Hb Hel Ha Hok Hrow Hh.
  destruct (rows_added this rows s bn anc Hc Hb Hel Ha Hok)
    as (s' & trs & Hrun & _ & _ & Hcn & Hlen & Hfresh & Hsh).
  assert (Hi : i < length trs).
  { rewrite Hlen. by eapply lookup_lt_Some. }
  destruct (lookup_lt_is_Some_2 trs i Hi) as [tr Htr].
  assert (Htrsh : shape_of (length s) 2 s' tr
    = SElement "tr" []
        (map (steal (drop (S i) rows ≫= spliced_row (headings this)))
             (expected_cells (row_cells (headings this) row)))).
  { assert (Hl : map (shape_of (length s) 2 s') trs !! i
                 = Some (shape_of (length s) 2 s' tr))
      by (by rewrite list_lookup_fmap, Htr).
    rewrite Hsh, (expected_rows_lookup _ _ _ _ Hrow), steal_row in Hl.
    by injection Hl as <-. }
  apply shape_of_SElement_inv in Htrsh as (n & Hn & _ & _ & Hch).
  assert (Ho : row_cells (headings this) row !! j
               = Some (own_property (name h) row)).
  { unfold row_cells. by rewrite list_lookup_fmap, Hh. }
  assert (Hcell : map (shape_of (length s) 1 s') (childNodes n) !! j
    = Some (steal (drop (S i) rows ≫= spliced_row (headings this))
              (steal (drop (S j) (row_cells (headings this) row)
                      ≫= spliced_cell)
                 (expected_cell (own_property (name h) row))))).
  { rewrite <- Hch, list_lookup_fmap, (expected_cells_lookup _ _ _ Ho).
    reflexivity. }
  rewrite list_lookup_fmap in Hcell.
  destruct (childNodes n !! j) as [td|] eqn:Htd; [|done].
  exists s', trs, tr, td. split_and!; try done.
  - unfold childNodes_of. by rewrite Hn.
  - unfold taken_later. rewrite <- steal_expected_cell_twice.
    simpl in Hcell. by injection Hcell.
Qed.


Lemma filter_none {A} (P : A → Prop) `{∀ x, Decision (P x)} (l : list A) :
  (∀ x, x ∈ l → ¬ P x) → filter P l = [].
Proof.
  induction l as [|x l IH]; intros HP; [done|].
  rewrite filter_cons_False by (apply HP; left).
  apply IH. intros; apply HP; by right.
Qed.

Lemma elem_of_add_token cl t x :
  x ∈ add_token cl t ↔ x ∈ cl ∨ x = t.
Proof.
  unfold add_token. case_bool_decide.
  - split; [tauto|]. intros [?| ->]; done.
  - rewrite elem_of_app, list_elem_of_singleton. tauto.
Qed.

Lemma elem_of_add_tokens ts : ∀ cl x,
  x ∈ foldl add_token cl ts ↔ x ∈ cl ∨ x ∈ ts.
Proof.
  induction ts as [|t ts IH]; intros cl x; simpl.
  - rewrite elem_of_nil. tauto.
  - rewrite IH, elem_of_add_token, elem_of_cons. tauto.
Qed.



Lemma foldl_place_NoDup nodes : ∀ cs,
  NoDup nodes →
  foldl place cs nodes = filter (λ c, c ∉ nodes) cs ++ nodes.
Proof.
  induction nodes as [|c nodes IH]; intros cs Hnd; simpl.
  - rewrite app_nil_r. symmetry. apply filter_all.
    intros; apply not_elem_of_nil.
  - apply NoDup_cons in Hnd as [Hc Hnd]. rewrite IH by done.
    unfold place. rewrite filter_app, list_filter_filter.
    rewrite filter_cons_True, filter_nil by done.
    rewrite <- app_assoc. simpl. f_equal.
    apply list_filter_iff. intros x. rewrite not_elem_of_cons. tauto.
Qed.



(** C10 (as amended).  A cell value that is an array or a plain object is
    sent to the decorated branch.  In the document after [appendRows] the
    cell is a [td] with the class tokens of the value's [classes]; it has
    no class when [classes] is missing or falsy, and it holds one empty
    text node when the value has no [content], as every array does.  The
    rows are such as [appendRows] renders ([row_ok]): a [classes] that is
    truthy has to be an iterable of class tokens. *)
Theorem object_values_are_decorated this rows s bn anc i j row h v :
  closed s →
  s !! element (tbody this) = Some bn → is_element bn = true →
  inclusive_ancestors (length s) s (element (tbody this)) = Some anc →
  Forall (λ row, row_ok (length s) anc (headings this) row = true) rows →
  rows !! i = Some row → headings this !! j = Some h →
  own_property (name h) row = Some v →
  (∃ items, v = VArray items) ∨ (∃ props, v = VObject props) →
  is_decorated v = true
  ∧ (∀ cell st, fill_cell cell row h st = fill_decorated cell v st)
  ∧ ∃ s' trs tr td cl ch,
      appendRows this rows s = Ok (this, s')
      ∧ childNodes_of s' (element (tbody this))
        = filter (λ c, c ∉ rows ≫= spliced_row (headings this))
                 (childNodes bn) ++ trs
      ∧ trs !! i = Some tr
      ∧ childNodes_of s' tr !! j = Some td
      ∧ shape_of (length s) 1 s' td = SElement "td" cl ch
      ∧ cl = foldl add_token [] (tokens_of (cell_classes (Some v)))
      ∧ (truthy (get_property v "classes") = false → cl = [])
      ∧ ((∃ items, v = VArray items)
         ∨ (∃ props, v = VObject props
                     ∧ own_property "content" props = None) →
         ch = [SText ""])
      ∧ ((∃ items, v = VArray items) → cl = [] ∧ ch = [SText ""]).
Proof.
  intros Hc Hb Hel Ha Hok Hrow Hh Hv Hobj.
  assert (Hplain : plain_record row = true).
  { rewrite Forall_forall in Hok. eapply row_ok_plain, Hok.
    by eapply list_elem_of_lookup_2. }
  assert (Hdec : is_decorated v = true)
    by (destruct Hobj as [[? ->]|[? ->]]; done).
  split_and!; [done| |].
  { intros cell st. unfold fill_cell.
    rewrite (bind_Ok _ _ _ _ _ (hasOwnProperty_plain _ _ _ Hplain)).
    rewrite Hv. simpl. by rewrite Hdec. }
  destruct (cell_rendered this rows s bn anc i j row h
              Hc Hb Hel Ha Hok Hrow Hh)
    as (s' & trs & tr & td & Hrun & Hcn & Htr & Htd & Hsh).
  rewrite Hv in Hsh.
  assert (Hfalsy : truthy (get_property v "classes") = false →
    foldl add_token [] (tokens_of (cell_classes (Some v))) = []).
  { intros Hf. unfold cell_classes. by rewrite Hdec, Hf. }
  assert (Hempty : (∃ items, v = VArray items)
         ∨ (∃ props, v = VObject props
                     ∧ own_property "content" props = None) →
    filter (λ c, kept (taken_later (headings this) rows i row j) c = true)
           [content_shape (cell_content (Some v))] = [SText ""]).
  { intros Hno.
    assert (Hct : cell_content (Some v) = VUndefined).
    { unfold cell_content. rewrite Hdec.
      destruct Hno as [[? ->]|(props & -> & Hnone)]; [done|].
      simpl. by rewrite Hnone. }
    by rewrite Hct. }
  eexists s', trs, tr, td, _, _. split_and!; try done.
  intros [items ->]. split; [by apply Hfalsy|].
  apply Hempty. left. by exists items.
Qed.

(** C2 (as amended).  [append] resolves its arguments in order: [null] and
    [undefined] become a new empty text node, a value that is no object a
    new text node of its string, and a wrapper is used as it is; every
    argument has a node of its own ([resolved_nodes]: the wrapper's node,
    or the next new address), no other node is made, and every node in
    turn becomes the last child of the container's node (a node that was
    already a child moves to the end), so that the container ends with
    its other children followed by the nodes in the order of the
    arguments; the container wrapper is returned, and the other nodes of
    the document only lose the children that were moved.  This holds when
    every argument is no object or is a wrapper on a node of the document
    that is neither the container's node nor one of its ancestors. *)
Theorem append_places_children this children s pn anc :
  closed s → s !! element this = Some pn → is_element pn = true →
  inclusive_ancestors (length s) s (element this) = Some anc →
  Forall (λ v, content_ok (length s) anc v = true) children →
  let nodes := resolved_nodes (length s) children in
  ∃ s',
    append this children s = Ok (this, s')
    ∧ Forall2 (resolved s s') children nodes
    ∧ length s' = length s + length (filter (λ v, moved v = []) children)
    ∧ childNodes_of s' (element this) = foldl place (childNodes pn) nodes
    ∧ (NoDup nodes →
       childNodes_of s' (element this)
       = filter (λ c, c ∉ nodes) (childNodes pn) ++ nodes)
    ∧ ∀ x n, s !! x = Some n → x ≠ element this →
        s' !! x = Some (unmoved (children ≫= moved) n).
Proof.
  intros Hc Hp Hel Ha Hok nodes.
  destruct (append_spec this children s pn anc Hc Hp Hel Ha Hok)
    as (s' & cs & pn' & Hrun & _ & Hstep & Hp' & _ & _ & Hcn & Hres & _
        & Hcs & Hlen).
  fold nodes in Hcs. subst cs.
  assert (Hch : childNodes_of s' (element this)
                = foldl place (childNodes pn) nodes).
  { unfold childNodes_of. by rewrite Hp'. }
  exists s'. split_and!; try done.
  - intros Hnd. rewrite Hch. by apply foldl_place_NoDup.
  - intros x n Hx Hne. eapply step_lookup; [done|done|].
    by rewrite list_elem_of_singleton.
Qed.

(** C4 (as amended).  [clear()] on a wrapper of an element removes the
    first element child, again and again, until the element has no element
    child: it returns the wrapper, no element child is left, and the child
    nodes that are no elements (the text nodes) stay as they are.  On an
    element without element children it changes nothing. *)
Theorem clear_removes_element_children this s n :
  s !! element this = Some n → is_element n = true →
  ∃ s',
    clear this s = Ok (this, s')
    ∧ childNodes_of s' (element this)
      = filter (λ c, is_element_at s c ≠ true) (childNodes n)
    ∧ (∀ n', s' !! element this = Some n' → children s' n' = [])
    ∧ (∀ x, x ≠ element this → s' !! x = s !! x)
    ∧ (children s n = [] → s' = s)
    ∧ ∀ c cs fuel, children s n = c :: cs →
        clear_loop (S fuel) this s
        = (removeChild (element this) c ;; clear_loop fuel this) s.
Proof.
  intros He Hn.
  set (n1 := set_childNodes
               (filter (λ c, is_element_at s c ≠ true) (childNodes n)) n).
  assert (Hlt : element this < length s) by (by eapply lookup_lt_Some).
  exists (<[element this := n1]> s). split_and!.
  - by apply clear_spec.
  - unfold childNodes_of. by rewrite list_lookup_insert_eq.
  - intros n'. rewrite list_lookup_insert_eq by done. intros [= <-].
    unfold children, n1. simpl. rewrite list_filter_filter.
    apply filter_none. intros c _ [H1 H2].
    by rewrite (is_element_at_insert _ _ n) in H1.
  - intros x Hx. by rewrite list_lookup_insert_ne.
  - intros Hnone. apply list_insert_id. rewrite He. f_equal.
    unfold n1. rewrite filter_all; [by rewrite set_childNodes_id|].
    intros c Hc Hel.
    assert (Hin : c ∈ children s n)
      by (unfold children; by apply list_elem_of_filter).
    rewrite Hnone in Hin. by apply elem_of_nil in Hin.
  - intros c cs fuel Hch. simpl. rewrite He.
    unfold is_element in Hn. destruct (kind n); [done|]. by rewrite Hch.
Qed.

Lemma made_headings_names specs i base :
  name <$> made_headings specs i base = spec_name <$> specs.
Proof.
  revert i base. induction specs as [|spec specs IH]; intros i base; [done|].
  simpl. f_equal. apply IH.
Qed.








(** C8 (as amended).  [get(force)] requests the file exactly when [force]
    is true or the stored expiry is earlier than the clock; otherwise it
    returns the stored data at once.  After a request that was answered at
    time [f] the expiry is [f] plus the duration, so the next [get]
    requests exactly when the age of the data exceeds the duration.  A
    cache that has never requested has expiry 0: with a duration of 1000
    and a first call at a clock reading [t0 > 0], the calls at [t0] and
    [t0 + 500] make one request and the call at [t0 + 1500] a second. *)
Theorem get_requests_when_stale :
  (∀ this force now,
     (∃ method uri, get_begin this force now = Await_requestJSON method uri)
     ↔ force = true ∨ (_expiry this < now)%Z)
  ∧ (∀ this force now,
       ¬ (force = true ∨ (_expiry this < now)%Z) →
       get_begin this force now = Return (_data this)
       ∧ ∀ response later,
           get this force now response later
           = (false, Fulfilled (_data this), this))
  ∧ (∀ this data f now,
       let this' := snd (get_resume this (Fulfilled data) f) in
       _data this' = data
       ∧ ((_expiry this' < now)%Z ↔ (now - f > _cache_duration this)%Z))
  ∧ ∀ method uri t0 d1 d2 d3, (0 < t0)%Z →
      let c0 := new_CachedFile method uri 1000 in
      let r1 := get c0 false t0 (Fulfilled d1) t0 in
      let r2 := get (snd r1) false (t0 + 500) (Fulfilled d2) (t0 + 500) in
      let r3 := get (snd r2) false (t0 + 1500) (Fulfilled d3) (t0 + 1500) in
      fst r1 = (true, Fulfilled d1)
      ∧ fst r2 = (false, Fulfilled d1)
      ∧ fst r3 = (true, Fulfilled d3).
Proof.
  split_and!.
  - intros this force now. unfold get_begin.
    destruct force; simpl.
    + split; [by left|eauto].
    + destruct (Z.ltb_spec (_expiry this) now).
      * split; [by right|eauto].
      * split; [by intros (? & ? & ?)|]. intros [?|?]; [done|lia].
  - intros this force now Hno.
    assert (Hb : get_begin this force now = Return (_data this)).
    { unfold get_begin. destruct force; [tauto|]. simpl.
      destruct (Z.ltb_spec (_expiry this) now); [tauto|done]. }
    split; [done|]. intros response later. unfold get. by rewrite Hb.
  - intros this data f now. simpl. split; [done|]. lia.
  - intros method uri t0 d1 d2 d3 Ht0. simpl. unfold get, get_begin. simpl.
    rewrite (proj2 (Z.ltb_lt 0 t0) Ht0). simpl.
    rewrite (proj2 (Z.ltb_ge (t0 + 1000) (t0 + 500))) by lia. simpl.
    rewrite (proj2 (Z.ltb_lt (t0 + 1000) (t0 + 1500))) by lia. done.
Qed.

(** C9.  When the request is rejected, [get] is rejected with the same
    reason, and the object is as it was: neither the data nor the expiry
    is written. *)
Theorem get_rejected_leaves_cache this reason :
  (∀ later, get_resume this (Rejected reason) later = (Rejected reason, this))
  ∧ ∀ force now later,
      (force = true ∨ (_expiry this < now)%Z) →
      get this force now (Rejected reason) later
      = (true, Rejected reason, this).
Proof.
  split; [done|]. intros force now later Hreq. unfold get, get_begin.
  replace (force || (_expiry this <? now)%Z) with true; [done|].
  symmetry. destruct Hreq as [->|Hlt]; [done|].
  rewrite (proj2 (Z.ltb_lt _ _) Hlt). by destruct force.
Qed.

(** class lists *)

Lemma elem_of_first_occurrences ts x : x ∈ first_occurrences ts ↔ x ∈ ts.
Proof.
  induction ts as [|t ts IH]; simpl; [done|].
  rewrite !elem_of_cons, list_elem_of_filter, IH.
  destruct (decide (x = t)); tauto.
Qed.

Lemma NoDup_first_occurrences ts : NoDup (first_occurrences ts).
Proof.
  induction ts as [|t ts IH]; simpl; [constructor|].
  apply NoDup_cons. split; [|by apply NoDup_filter].
  rewrite list_elem_of_filter. tauto.
Qed.

Lemma add_tokens_first_occurrences ts : ∀ cl,
  foldl add_token cl ts
  = cl ++ filter (λ t, t ∉ cl) (first_occurrences ts).
Proof.
  induction ts as [|t ts IH]; intros cl; simpl.
  - by rewrite filter_nil, app_nil_r.
  - rewrite IH. unfold add_token. case_bool_decide as Ht.
    + rewrite filter_cons_False by (by intros H; apply H). f_equal.
      rewrite list_filter_filter. apply list_filter_iff.
      intros x. split; [|tauto]. intros Hx. split; [done|].
      intros ->. done.
    + rewrite filter_cons_True by done.
      rewrite <- app_assoc. simpl. do 2 f_equal.
      rewrite list_filter_filter. apply list_filter_iff.
      intros x. rewrite elem_of_app, list_elem_of_singleton. tauto.
Qed.

Lemma add_token_prefix cl t : cl `prefix_of` add_token cl t.
Proof.
  unfold add_token. case_bool_decide; [done|]. by apply prefix_app_r.
Qed.

Lemma add_tokens_prefix ts : ∀ cl, cl `prefix_of` foldl add_token cl ts.
Proof.
  induction ts as [|t ts IH]; intros cl; simpl; [done|].
  etrans; [apply add_token_prefix|apply IH].
Qed.

Lemma add_token_listed cl t : t ∈ cl → add_token cl t = cl.
Proof. intros H. unfold add_token. by rewrite bool_decide_eq_true_2. Qed.

Lemma add_tokens_listed ts : ∀ cl,
  (∀ t, t ∈ ts → t ∈ cl) → foldl add_token cl ts = cl.
Proof.
  induction ts as [|t ts IH]; intros cl H; simpl; [done|].
  rewrite add_token_listed by (apply H; left).
  apply IH. intros t' Ht'. apply H. by right.
Qed.

Lemma add_tokens_twice ts cl :
  foldl add_token (foldl add_token cl ts) ts = foldl add_token cl ts.
Proof.
  apply add_tokens_listed. intros t Ht.
  apply (proj2 (elem_of_add_tokens ts cl t)). by right.
Qed.

Lemma add_class_not_element this cls s :
  is_element_at s (element this) = false →
  add_class this cls s = if truthy cls then Err TypeError else Ok (tt, s).
Proof.
  unfold is_element_at, add_class, classList_add. intros H.
  destruct (truthy cls); [|done].
  destruct (s !! element this) as [n|]; [|done]. by rewrite H.
Qed.

Lemma addClasses_not_element this classes s :
  is_element_at s (element this) = false →
  addClasses this classes s
  = if forallb (λ cls, negb (truthy cls)) classes
    then Ok (this, s) else Err TypeError.
Proof.
  intros H. induction classes as [|cls classes IH]; [done|].
  rewrite addClasses_cons. unfold bind at 1.
  rewrite add_class_not_element by done. simpl.
  destruct (truthy cls); [done|]. simpl. apply IH.
Qed.

Lemma addClasses_fixed this classes s w s1 :
  addClasses this classes s = Ok (w, s1) →
  addClasses this classes s1 = Ok (w, s1).
Proof.
  intros Hrun.
  destruct (is_element_at s (element this)) eqn:Hel.
  - unfold is_element_at in Hel.
    destruct (s !! element this) as [n|] eqn:He; [|done].
    pose proof (addClasses_Ok _ _ _ _ _ Hrun) as Hok.
    rewrite (addClasses_spec _ _ _ _ He Hel Hok) in Hrun.
    injection Hrun as <- <-.
    assert (Hlt : element this < length s) by (by eapply lookup_lt_Some).
    erewrite addClasses_spec;
      [|by apply list_lookup_insert_eq|done|done].
    simpl. by rewrite add_tokens_twice, list_insert_insert_eq.
  - rewrite addClasses_not_element in Hrun by done.
    destruct (forallb _ classes) eqn:E; [|done]. injection Hrun as <- <-.
    by rewrite addClasses_not_element, E.
Qed.

(** rmClasses *)

Lemma rmClasses_cons this cls classes s :
  rmClasses this (cls :: classes) s
  = (rm_class this cls ;; rmClasses this classes) s.
Proof.
  unfold rmClasses. simpl. unfold bind.
  by destruct (rm_class this cls s) as [[[] s1]|e].
Qed.

Lemma classList_remove_ok e token s n :
  s !! e = Some n → is_element n = true →
  String.eqb token "" = false → has_whitespace token = false →
  classList_remove e token s
  = Ok (tt, <[e := set_classList (filter (λ t, t ≠ token) (classList n)) n]>
              s).
Proof.
  intros He Hn Ht Hw. unfold classList_remove.
  by rewrite He, Hn, Ht, Hw, (alter_insert _ _ _ _ He).
Qed.

Lemma filter_not_in_cons (t : string) ts (cl : list string) :
  filter (λ x, x ∉ ts) (filter (λ x, x ≠ t) cl)
  = filter (λ x, x ∉ t :: ts) cl.
Proof.
  rewrite list_filter_filter. apply list_filter_iff. intros x.
  rewrite not_elem_of_cons. tauto.
Qed.

Lemma rmClasses_spec this classes : ∀ s n,
  s !! element this = Some n → is_element n = true →
  Forall (λ cls, token_ok cls = true) classes →
  rmClasses this classes s
  = Ok (this, <[element this :=
          set_classList
            (filter (λ t, t ∉ tokens_of classes) (classList n)) n]> s).
Proof.
  induction classes as [|cls classes IH]; intros s n He Hn Hok.
  - unfold rmClasses. simpl.
    rewrite (filter_all _ (classList n)) by (intros; apply not_elem_of_nil).
    by rewrite set_classList_id, list_insert_id.
  - apply Forall_cons in Hok as [Hcls Hok].
    rewrite rmClasses_cons, tokens_of_cons. unfold rm_class.
    unfold token_ok in Hcls. destruct (truthy cls).
    + apply andb_true_iff in Hcls as [H1 H2].
      apply negb_true_iff in H1, H2.
      rewrite (bind_Ok _ _ _ _ _ (classList_remove_ok _ _ _ _ He Hn H1 H2)).
      rewrite (IH _ (set_classList
                       (filter (λ t, t ≠ toString cls) (classList n)) n));
        [|by rewrite list_lookup_insert_eq by (by eapply lookup_lt_Some)
         |done|done].
      simpl. by rewrite list_insert_insert_eq, filter_not_in_cons.
    + unfold bind, ret. by apply IH.
Qed.

Lemma filter_added_tokens ts : ∀ cl : list string,
  (∀ t, t ∈ ts → t ∉ cl) →
  filter (λ t, t ∉ ts) (foldl add_token cl ts) = cl.
Proof.
  intros cl Hnew.
  assert (Hstep : ∀ us cl', filter (λ t, t ∉ ts) cl' = cl →
    (∀ t, t ∈ us → t ∈ ts) →
    filter (λ t, t ∉ ts) (foldl add_token cl' us) = cl).
  { induction us as [|u us IH]; intros cl' Hcl' Hus; simpl; [done|].
    apply IH; [|intros t Ht; apply Hus; by right].
    unfold add_token. case_bool_decide; [done|].
    rewrite filter_app, Hcl'.
    rewrite filter_cons_False, filter_nil, app_nil_r; [done|].
    intros Hn. apply Hn, Hus. left. }
  apply Hstep; [|done]. apply filter_all. intros t Ht Hin.
  by apply (Hnew t).
Qed.

(** X1.  On an element, [addClasses] returns exactly when every class that
    is not falsy converts to a string that is not empty and holds no white
    space.  It then leaves the classes that were there in place and puts
    behind them the new ones, each once and in the order in which the
    arguments name them first, and it changes nothing else in the
    document. *)
Theorem addClasses_returns_iff this classes s n :
  s !! element this = Some n → is_element n = true →
  ((∃ w s', addClasses this classes s = Ok (w, s'))
   ↔ Forall (λ cls, token_ok cls = true) classes)
  ∧ ∀ w s', addClasses this classes s = Ok (w, s') →
      let added := filter (λ t, t ∉ classList n)
                          (first_occurrences (tokens_of classes)) in
      w = this
      ∧ s' = <[element this := set_classList (classList n ++ added) n]> s
      ∧ classList_of s' (element this) = classList n ++ added
      ∧ NoDup added
      ∧ (∀ t, t ∈ added ↔ t ∈ tokens_of classes ∧ t ∉ classList n)
      ∧ (NoDup (classList n) → NoDup (classList_of s' (element this))).
Proof.
  intros He Hn.
  assert (Hlt : element this < length s) by (by eapply lookup_lt_Some).
  split.
  - split.
    + intros (w & s' & Hrun). by eapply addClasses_Ok.
    + intros Hok. eexists _, _. by apply addClasses_spec.
  - intros w s' Hrun added.
    pose proof (addClasses_Ok _ _ _ _ _ Hrun) as Hok.
    rewrite (addClasses_spec _ _ _ _ He Hn Hok) in Hrun.
    injection Hrun as <- <-. unfold classList_of.
    rewrite list_lookup_insert_eq by done. simpl.
    rewrite add_tokens_first_occurrences. fold added.
    assert (Hnd : NoDup added)
      by apply NoDup_filter, NoDup_first_occurrences.
    assert (Hin : ∀ t, t ∈ added ↔ t ∈ tokens_of classes ∧ t ∉ classList n).
    { intros t. unfold added.
      rewrite list_elem_of_filter, elem_of_first_occurrences. tauto. }
    split_and!; try done.
    intros Hold. apply NoDup_app. split; [done|]. split; [|done].
    intros t Ht Ht'. apply Hin in Ht'. tauto.
Qed.

(** X2.  [addClasses] with the same classes a second time changes
    nothing: the two calls end as the first one does, in the same
    document or with the same exception. *)
Theorem addClasses_idempotent this classes s :
  (addClasses this classes ;; addClasses this classes) s
  = addClasses this classes s.
Proof.
  unfold bind.
  destruct (addClasses this classes s) as [[w s1]|e] eqn:Hrun; [|done].
  by eapply addClasses_fixed.
Qed.

(** X3.  On an element, [rmClasses] with classes that are falsy or valid
    tokens returns the wrapper; of the classes of the element exactly
    those that were named are gone, the others stay in their order, and
    nothing else in the document changes.  A named class that the element
    does not have is no error. *)
Theorem rmClasses_removes this classes s n :
  s !! element this = Some n → is_element n = true →
  Forall (λ cls, token_ok cls = true) classes →
  ∃ s',
    rmClasses this classes s = Ok (this, s')
    ∧ classList_of s' (element this)
      = filter (λ t, t ∉ tokens_of classes) (classList n)
    ∧ s' = <[element this :=
               set_classList (classList_of s' (element this)) n]> s
    ∧ ((∀ t, t ∈ tokens_of classes → t ∉ classList n) → s' = s).
Proof.
  intros He Hn Hok.
  assert (Hlt : element this < length s) by (by eapply lookup_lt_Some).
  eexists. split; [by apply rmClasses_spec|].
  unfold classList_of. rewrite list_lookup_insert_eq by done. simpl.
  split_and!; [done|done|].
  intros Hnone. rewrite filter_all.
  - by rewrite set_classList_id, list_insert_id.
  - intros t Ht Hin. by apply (Hnone t).
Qed.

(** X4.  [rmClasses] undoes [addClasses] on the class list: when none of
    the classes was on the element before, adding them and removing them
    again gives the element the class list it had, tokens and order, and
    leaves the class lists of the other nodes and the tree as they were.
    (The [class] attribute that the DOM keeps beside the list is no part
    of the model: there it can be left behind, empty.) *)
Theorem rmClasses_undoes_addClasses this classes s n :
  s !! element this = Some n → is_element n = true →
  Forall (λ cls, token_ok cls = true) classes →
  (∀ t, t ∈ tokens_of classes → t ∉ classList n) →
  ∃ s',
    (addClasses this classes ;; rmClasses this classes) s = Ok (this, s')
    ∧ classList_of s' (element this) = classList n
    ∧ (∀ x, classList_of s' x = classList_of s x)
    ∧ (∀ x, childNodes_of s' x = childNodes_of s x)
    ∧ ∀ x, kind <$> s' !! x = kind <$> s !! x.
Proof.
  intros He Hn Hok Hnew.
  assert (Hlt : element this < length s) by (by eapply lookup_lt_Some).
  assert (Hrun : (addClasses this classes ;; rmClasses this classes) s
                 = Ok (this, s)).
  { rewrite (bind_Ok _ _ _ _ _ (addClasses_spec _ _ _ _ He Hn Hok)).
    erewrite rmClasses_spec; [|by apply list_lookup_insert_eq|done|done].
    simpl. rewrite list_insert_insert_eq, filter_added_tokens by done.
    apply f_equal, f_equal, list_insert_id. rewrite He. by destruct n. }
  exists s. split_and!; try done.
  unfold classList_of. by rewrite He.
Qed.

(** X5.  A text node has no class list: on a wrapper whose node is no
    element, [addClasses] throws a [TypeError] as soon as one class is not
    falsy, and returns the wrapper, with the document as it was, when all
    of them are. *)
Theorem addClasses_on_text_node this classes s :
  is_element_at s (element this) = false →
  (Forall (λ cls, truthy cls = false) classes →
   addClasses this classes s = Ok (this, s))
  ∧ (Exists (λ cls, truthy cls = true) classes →
     addClasses this classes s = Err TypeError).
Proof.
  intros H. rewrite addClasses_not_element by done. split.
  - induction 1 as [|cls classes Hcls _ IH]; [done|].
    simpl. by rewrite Hcls.
  - induction 1 as [cls classes Hcls|cls classes _ IH]; simpl.
    + by rewrite Hcls.
    + destruct (truthy cls); [done|]. apply IH.
Qed.

(** appendChild, once more *)

Lemma appendChild_Ok p c s s' :
  appendChild p c s = Ok (tt, s') →
  s' = moved_to p c s
  ∧ ∃ pn anc, s !! p = Some pn ∧ is_element pn = true ∧ c < length s
      ∧ inclusive_ancestors (length s) s p = Some anc ∧ c ∉ anc.
Proof.
  unfold appendChild. destruct (s !! p) as [pn|]; [|done].
  destruct (s !! c) eqn:Hc; [|done]. destruct (is_element pn) eqn:Hel; [|done].
  destruct (inclusive_ancestors (length s) s p) as [anc|]; [|done].
  case_bool_decide; [done|]. intros [= <-]. split; [done|].
  exists pn, anc. split_and!; try done. by eapply lookup_lt_Some.
Qed.

Lemma unmoved_twice W n : unmoved W (unmoved W n) = unmoved W n.
Proof.
  rewrite unmoved_app. apply unmoved_ext. intros c _.
  rewrite elem_of_app. tauto.
Qed.

Lemma push_child_again c n :
  push_child c (unmoved [c] (push_child c (unmoved [c] n)))
  = push_child c (unmoved [c] n).
Proof.
  destruct n as [k cl cs]. unfold push_child, unmoved, set_childNodes. simpl.
  f_equal. rewrite filter_app, list_filter_filter.
  rewrite (filter_cons_False _ c []) by (intros H; apply H; left).
  rewrite filter_nil, app_nil_r. f_equal. apply list_filter_iff. tauto.
Qed.

Lemma moved_to_twice p c s :
  moved_to p c (moved_to p c s) = moved_to p c s.
Proof.
  apply list_eq. intros i. destruct (decide (i = p)) as [->|Hne].
  - destruct (s !! p) as [pn|] eqn:Hp.
    + rewrite (lookup_moved_to_eq _ _ _ _ (lookup_moved_to_eq _ _ _ _ Hp)).
      rewrite (lookup_moved_to_eq _ _ _ _ Hp). f_equal.
      apply push_child_again.
    + apply lookup_ge_None in Hp.
      rewrite !(proj2 (lookup_ge_None _ _)); [done|..];
        by rewrite ?length_moved_to.
  - rewrite !lookup_moved_to_ne by done.
    destruct (s !! i) as [n|]; [|done]. simpl. f_equal. apply unmoved_twice.
Qed.

Lemma appendChild_again p c s s' :
  appendChild p c s = Ok (tt, s') → appendChild p c s' = Ok (tt, s').
Proof.
  intros H. apply appendChild_Ok in H
    as (-> & pn & anc & Hp & Hel & Hc & Ha & Hn).
  rewrite <- (moved_to_twice p c s) at 2.
  eapply appendChild_ok.
  - by apply lookup_moved_to_eq.
  - done.
  - by rewrite length_moved_to.
  - rewrite length_moved_to. eapply inclusive_ancestors_ext; [done|].
    intros y Hy. apply parentNode_moved. by intros ->.
  - done.
Qed.

Lemma append_child_wrapper this w s :
  append_child this (VWrapper w) s = appendChild (element this) (element w) s.
Proof. done. Qed.

Lemma append_child_leaf this v s :
  content_ok 0 [] v = true → moved v = [] →
  append_child this v s
  = appendChild (element this) (length s)
      (s ++ [Node (TextNode (text_of v)) [] []]).
Proof.
  intros Hok Hm. unfold append_child.
  rewrite (bind_Ok _ _ _ _ _ (resolve_child_leaf v s Hok Hm)). done.
Qed.

Lemma append_child_Ok this v s s' :
  append_child this v s = Ok (tt, s') →
  ∃ c s1, appendChild (element this) c s1 = Ok (tt, s')
    ∧ match v with
      | VWrapper w => c = element w ∧ s1 = s
      | _ => c = length s ∧ s1 = s ++ [Node (TextNode (text_of v)) [] []]
      end.
Proof.
  intros H.
  assert (Hleaf : content_ok 0 [] v = true → moved v = [] →
    ∃ c s1, appendChild (element this) c s1 = Ok (tt, s')
      ∧ c = length s ∧ s1 = s ++ [Node (TextNode (text_of v)) [] []]).
  { intros Hok Hm. rewrite append_child_leaf in H by done.
    by eexists _, _. }
  destruct v as [| |b|n|str|items|props|w]; try (by apply Hleaf);
    try (by vm_compute in H).
  exists (element w), s. by split.
Qed.

Lemma append_app this xs ys s :
  append this (xs ++ ys) s = (append this xs ;; append this ys) s.
Proof.
  unfold append, bind, ret. rewrite for_of_app. unfold bind.
  by destruct (for_of xs (append_child this) s) as [[[] s1]|e].
Qed.

(** X6.  The arguments of [append] are handled one after the other: a
    call with the arguments [xs] followed by [ys] does what the call with
    [xs] followed by the call with [ys] does, exceptions included. *)
Theorem append_sequence this xs ys s :
  append this (xs ++ ys) s = (append this xs ;; append this ys) s.
Proof. apply append_app. Qed.

(** X7.  Appending the same wrapper twice is appending it once: the
    second [appendChild] finds the node as the last child and leaves the
    document as it is. *)
Theorem append_same_wrapper_twice this w s :
  append this [VWrapper w; VWrapper w] s = append this [VWrapper w] s.
Proof.
  rewrite (append_cons this (VWrapper w) [VWrapper w]).
  rewrite (append_cons this (VWrapper w) []).
  unfold bind. rewrite append_child_wrapper.
  destruct (appendChild (element this) (element w) s) as [[[] s1]|e] eqn:E;
    [|done].
  rewrite (append_cons this (VWrapper w) []). unfold bind.
  by rewrite append_child_wrapper, (appendChild_again _ _ _ _ E).
Qed.

(** X8.  After [append] a node has one parent: the node that stands for
    the argument, a wrapper's node or the new text node, is the last child
    of the container's node, occurs there once, and is a child of no other
    node; a wrapper's node has left the parent it had. *)
Theorem append_single_parent this v s w s' :
  append this [v] s = Ok (w, s') →
  ∃ c cs,
    (match v with VWrapper child => c = element child | _ => c = length s end)
    ∧ childNodes_of s' (element this) = cs ++ [c]
    ∧ (c ∉ cs)
    ∧ ∀ x n, s' !! x = Some n → c ∈ childNodes n → x = element this.
Proof.
  rewrite append_cons. unfold bind at 1.
  destruct (append_child this v s) as [[[] s1]|e] eqn:E; [|done].
  rewrite append_nil. intros [= <- <-].
  apply append_child_Ok in E as (c & s0 & Happ & Hv).
  apply appendChild_Ok in Happ as (-> & pn & anc & Hp & _).
  exists c, (filter (λ x, x ∉ [c]) (childNodes pn)). split_and!.
  - destruct v; tauto.
  - unfold childNodes_of. by rewrite (lookup_moved_to_eq _ _ _ _ Hp).
  - rewrite list_elem_of_filter, list_elem_of_singleton. tauto.
  - intros x n Hx Hin. destruct (decide (x = element this)) as [|Hne];
      [done|].
    rewrite lookup_moved_to_ne in Hx by done.
    destruct (s0 !! x) as [m|]; [|done]. injection Hx as <-.
    unfold unmoved in Hin. simpl in Hin.
    rewrite list_elem_of_filter, list_elem_of_singleton in Hin. tauto.
Qed.

(** clear *)

Lemma clear_not_element this s :
  is_element_at s (element this) = false → clear this s = Err TypeError.
Proof.
  unfold is_element_at, is_element, clear, bind. intros H.
  destruct (length (childNodes_of s (element this))); simpl;
    destruct (s !! element this) as [m|]; try done;
    by destruct (kind m).
Qed.

(** X9.  [clear()] twice is [clear()] once: after a [clear()] there is
    no element child left to remove, and on a node that is no element both
    end with the same [TypeError]. *)
Theorem clear_idempotent this s :
  (clear this ;; clear this) s = clear this s.
Proof.
  destruct (is_element_at s (element this)) eqn:Hel.
  - unfold is_element_at in Hel.
    destruct (s !! element this) as [n|] eqn:He; [|done].
    assert (Hlt : element this < length s) by (by eapply lookup_lt_Some).
    rewrite (bind_Ok _ _ _ _ _ (clear_spec _ _ _ He Hel)).
    erewrite clear_spec; [|by apply list_lookup_insert_eq|done].
    rewrite (clear_spec _ _ _ He Hel). unfold set_childNodes. simpl.
    rewrite list_insert_insert_eq, list_filter_filter.
    rewrite (list_filter_iff _ (λ c, is_element_at s c ≠ true)); [done|].
    intros c. rewrite (is_element_at_insert _ _ n) by done. tauto.
  - unfold bind. by rewrite clear_not_element.
Qed.

(** the text of a node *)



Lemma concat_one (str : string) : String.concat "" [str] = str.
Proof. done. Qed.



(** moving a root *)










Lemma foldl_index_last hs : ∀ (m : gmap string heading) key,
  foldl index_heading m hs !! key
  = match last (filter (λ h, name h = key) hs) with
    | Some h => Some h
    | None => m !! key
    end.
Proof.
  induction hs as [|h hs IH]; intros m key; [done|].
  simpl. rewrite IH, filter_cons. unfold index_heading.
  case_decide as Hk.
  - rewrite last_cons.
    destruct (last (filter (λ h0, name h0 = key) hs)); [done|].
    by rewrite Hk, lookup_insert_eq.
  - destruct (last (filter (λ h0, name h0 = key) hs)); [done|].
    by rewrite lookup_insert_ne.
Qed.


(** X13.  The index by name holds, for every name, the last heading of
    that name: when names repeat, the earlier headings of a name are still
    in the list of headings, and so in every row, but the index no longer
    leads to them; a name that no heading has is not in the index.  The
    index is read by its own properties; the name [__proto__], which an
    assignment to an object takes for the prototype, is left aside. *)
Theorem new_TableMaker_index_last specs s this s' key :
  closed s → new_TableMaker specs s = Ok (this, s') →
  key ≠ "__proto__" →
  headings_by_name this !! key
  = last (filter (λ h, name h = key) (headings this))
  ∧ name <$> headings this = spec_name <$> specs.
Proof.
  intros Hc Hrun _.
  destruct (new_TableMaker_spec specs s Hc)
    as (this' & s'' & Hrun' & _ & _ & _ & _ & Hhs & Hidx & _).
  rewrite Hrun in Hrun'. injection Hrun' as <- <-.
  rewrite Hidx, <- Hhs, foldl_index_last. split.
  - by destruct (last (filter (λ h, name h = key) (headings this))).
  - rewrite Hhs. apply made_headings_names.
Qed.

(** X14.  The rows of [appendRows] are handled one after the other: a
    call with the rows [rows1] followed by [rows2] does what the call with
    [rows1] followed by the call with [rows2] does, exceptions included. *)
Theorem appendRows_sequence this rows1 rows2 s :
  appendRows this (rows1 ++ rows2) s
  = (appendRows this rows1 ;; appendRows this rows2) s.
Proof.
  unfold appendRows, bind, ret. rewrite for_of_app. unfold bind.
  by destruct (for_of rows1 (append_row this) s) as [[[] s1]|e].
Qed.

(** X15.  [appendRows] reads of a row record only its own property
    [hasOwnProperty], where it looks for the method it calls, and the own
    properties that are named after a heading: two batches whose records
    agree on these properties end in the same document, or with the same
    exception, whatever else the records hold. *)
Theorem appendRows_reads_headings_only this rows rows' s :
  Forall2 (λ row row',
             own_property "hasOwnProperty" row'
             = own_property "hasOwnProperty" row
             ∧ ∀ h, h ∈ headings this →
                 own_property (name h) row' = own_property (name h) row)
          rows rows' →
  appendRows this rows' s = appendRows this rows s.
Proof.
  intros H. rewrite !appendRows_eq.
  enough (Heq : for_of rows' (append_row this) s
                = for_of rows (append_row this) s) by (by rewrite Heq).
  revert s.
  induction H as [|row row' rows rows' [Hm Hrow] _ IH]; intros s.
  - done.
  - simpl. unfold bind.
    assert (Heq : append_row this row' s = append_row this row s).
    { unfold append_row, bind.
      destruct (new_ElementWrapper "tr" s) as [[tr s1]|e]; [|done].
      rewrite (for_of_ext _ (append_cell tr row') (append_cell tr row));
        [done|].
      intros col s' Hcol. unfold append_cell, bind.
      destruct (new_ElementWrapper "td" s') as [[cell s2]|e]; [|done].
      by rewrite (fill_cell_ext _ row row') by (done || by apply Hrow). }
    rewrite Heq.
    destruct (append_row this row s) as [[[] s1]|e]; [apply IH|done].
Qed.

(** X16.  [appendRows] only adds: for rows that it renders, every node
    that was in the document before, but for the body, is afterwards what
    it was, less the children that a row has spliced into a cell.  So the
    head and the header row are never touched, and when no row brings a
    wrapper, nothing that was there changes and the rows that the body
    had stay in place in front of the new ones. *)
Theorem appendRows_only_adds this rows s bn anc :
  closed s →
  s !! element (tbody this) = Some bn → is_element bn = true →
  inclusive_ancestors (length s) s (element (tbody this)) = Some anc →
  Forall (λ row, row_ok (length s) anc (headings this) row = true) rows →
  ∃ s' trs,
    appendRows this rows s = Ok (this, s')
    ∧ (∀ x n, s !! x = Some n → x ≠ element (tbody this) →
         s' !! x
         = Some (unmoved (rows ≫= spliced_row (headings this)) n))
    ∧ (rows ≫= spliced_row (headings this) = [] →
       (∀ x n, s !! x = Some n → x ≠ element (tbody this) →
          s' !! x = Some n)
       ∧ childNodes_of s' (element (tbody this)) = childNodes bn ++ trs
       ∧ length trs = length rows
       ∧ Forall (λ tr, length s ≤ tr) trs).
Proof.
  intros Hc Hb Hel Ha Hok.
  destruct (rows_added this rows s bn anc Hc Hb Hel Ha Hok)
    as (s' & trs & Hrun & _ & Hs & Hcn & Hlen & Hfresh & _).
  exists s', trs. split_and!; [done| |].
  - intros x n Hx Hne. apply (step_lookup _ _ _ _ _ _ Hs Hx).
    by rewrite list_elem_of_singleton.
  - intros HW. rewrite HW in Hs, Hcn. split_and!; [|
      |done|done].
    + intros x n Hx Hne. rewrite (step_lookup _ _ _ _ _ _ Hs Hx).
      * by rewrite unmoved_nil.
      * by rewrite list_elem_of_singleton.
    + rewrite Hcn. f_equal. apply filter_all. intros c _.
      apply not_elem_of_nil.
Qed.

Lemma get_begin_stale this now :
  (_expiry this < now)%Z →
  get_begin this false now = Await_requestJSON (_method this) (_uri this).
Proof.
  intros H. unfold get_begin. simpl.
  by rewrite (proj2 (Z.ltb_lt _ _) H).
Qed.

(** X17.  [get] keeps no note of a request that is under way: a second
    call that comes while the first one waits finds the cache as stale as
    the first one did and requests as well.  The answers are stored as
    they arrive, so the cache ends with the data and the expiry of the
    answer that came last, whichever call asked for it. *)
Theorem get_no_single_flight this now1 now2 d1 d2 t1 t2 :
  (_expiry this < now1)%Z → (now1 ≤ now2)%Z →
  get_begin this false now1 = Await_requestJSON (_method this) (_uri this)
  ∧ get_begin this false now2 = Await_requestJSON (_method this) (_uri this)
  ∧ let r1 := get_resume this (Fulfilled d1) t1 in
    let r2 := get_resume (snd r1) (Fulfilled d2) t2 in
    fst r1 = Fulfilled d1 ∧ fst r2 = Fulfilled d2
    ∧ _data (snd r2) = d2
    ∧ _expiry (snd r2) = (t2 + _cache_duration this)%Z.
Proof.
  intros H1 H2. split_and!; try done; apply get_begin_stale; lia.
Qed.


(** strings *)

Lemma split_nonempty sep s : split sep s ≠ [].
Proof.
  destruct s as [|c s]; simpl; [done|].
  destruct (Ascii.eqb c sep); [done|]. by destruct (split sep s).
Qed.

Lemma split_contains sep s :
  contains sep s = false ↔ ∃ part, split sep s = [part].
Proof.
  induction s as [|c s IH]; simpl.
  - split; [by eexists|done].
  - destruct (Ascii.eqb c sep); simpl.
    + split; [done|]. intros [part H]. injection H as _ H.
      by apply split_nonempty in H.
    + rewrite IH. pose proof (split_nonempty sep s) as Hne.
      destruct (split sep s) as [|p [|q ps]].
      * done.
      * split; [by eexists|by eexists].
      * split; by intros [? ?].
Qed.

Lemma concat_cons sep x y l :
  String.concat sep (x :: y :: l)
  = (x ++ sep ++ String.concat sep (y :: l))%string.
Proof. done. Qed.

Lemma blank_last_cons (x y : string) l :
  <[length (x :: y :: l) - 1 := ""]> (x :: y :: l)
  = x :: <[length (y :: l) - 1 := ""]> (y :: l).
Proof. simpl. by rewrite Nat.sub_0_r. Qed.

Lemma blank_last_nonempty (l : list string) :
  l ≠ [] → <[length l - 1 := ""]> l ≠ [].
Proof. by destruct l as [|x [|y l]]. Qed.

Lemma join_parts s :
  String.concat "/" (<[length (split "/" s) - 1 := ""]> (split "/" s))
  = up_to_last_slash s.
Proof.
  induction s as [|c s IH]; [done|].
  cbn [split up_to_last_slash contains].
  destruct (Ascii.eqb c "/") eqn:Hc.
  - apply Ascii.eqb_eq in Hc as ->. simpl orb. cbv iota.
    pose proof (split_nonempty "/" s) as Hne.
    destruct (split "/" s) as [|p ps] eqn:Hs; [done|].
    rewrite blank_last_cons.
    pose proof (blank_last_nonempty (p :: ps) ltac:(done)) as Hne'.
    destruct (<[length (p :: ps) - 1 := ""]> (p :: ps)) as [|q qs] eqn:Hq;
      [done|].
    rewrite concat_cons, IH. done.
  - simpl orb.
    destruct (contains "/" s) eqn:Hs.
    + destruct (split "/" s) as [|p [|q ps]] eqn:Hsp.
      * by apply split_nonempty in Hsp.
      * assert (contains "/" s = false)
          by (apply split_contains; rewrite Hsp; by eexists).
        congruence.
      * rewrite blank_last_cons, <- IH, blank_last_cons.
        pose proof (blank_last_nonempty (q :: ps) ltac:(done)) as Hne'.
        destruct (<[length (q :: ps) - 1 := ""]> (q :: ps)) as [|r rs];
          [done|].
        by rewrite !concat_cons.
    + apply split_contains in Hs as [part Hs]. by rewrite Hs.
Qed.

Lemma up_to_last_slash_cons c s :
  contains "/" s = true →
  up_to_last_slash (String c s) = String c (up_to_last_slash s).
Proof.
  intros H. cbn [up_to_last_slash contains]. by rewrite H, orb_true_r.
Qed.

Lemma up_to_last_slash_whole s :
  substring_from (Z.of_nat (String.length s) - 1) s = "/" →
  up_to_last_slash s = s.
Proof.
  unfold substring_from.
  induction s as [|c s IH]; [done|].
  replace (Z.to_nat (Z.of_nat (String.length (String c s)) - 1))
    with (String.length s) by (simpl; lia).
  replace (String.length (String c s) - String.length s) with 1
    by (simpl; lia).
  destruct s as [|d s].
  - simpl. intros [= ->]. done.
  - intros H.
    assert (Hs : up_to_last_slash (String d s) = String d s).
    { apply IH.
      replace (Z.to_nat (Z.of_nat (String.length (String d s)) - 1))
        with (String.length s) by (simpl; lia).
      replace (String.length (String d s) - String.length s) with 1
        by (simpl; lia).
      exact H. }
    assert (Hc : contains "/" (String d s) = true).
    { destruct (contains "/" (String d s)) eqn:E; [done|].
      cbn [up_to_last_slash] in Hs. by rewrite E in Hs. }
    by rewrite up_to_last_slash_cons, Hs.
Qed.

Lemma getPageURI_eq location :
  getPageURI location = up_to_last_slash location.
Proof.
  unfold getPageURI.
  destruct (String.eqb_spec
              (substring_from (Z.of_nat (String.length location) - 1)
                              location) "/") as [H|H]; simpl.
  - symmetry. by apply up_to_last_slash_whole.
  - apply join_parts.
Qed.

Lemma up_to_last_slash_none s :
  contains "/" s = false → up_to_last_slash s = "".
Proof. destruct s as [|c s]; [done|]. simpl. by intros ->. Qed.

Lemma up_to_last_slash_rest s :
  ∃ rest, s = (up_to_last_slash s ++ rest)%string
    ∧ contains "/" rest = false.
Proof.
  induction s as [|c s (rest & IH & Hrest)]; [by exists ""|].
  cbn [up_to_last_slash]. destruct (contains "/" (String c s)) eqn:E.
  - exists rest. split; [|done].
    change (String c s = String c (up_to_last_slash s ++ rest)%string).
    by f_equal.
  - by exists (String c s).
Qed.

Lemma up_to_last_slash_ends s :
  contains "/" s = true → ∃ pre, up_to_last_slash s = (pre ++ "/")%string.
Proof.
  induction s as [|c s IH]; [done|]. intros H.
  cbn [up_to_last_slash]. rewrite H. cbn [contains] in H.
  destruct (contains "/" s) eqn:Hs.
  - destruct (IH eq_refl) as [pre ->]. by exists (String c pre).
  - rewrite orb_false_r in H. apply Ascii.eqb_eq in H as ->.
    rewrite up_to_last_slash_none by done. by exists "".
Qed.

Lemma contains_app c s t :
  contains c (s ++ t)%string = contains c s || contains c t.
Proof.
  induction s as [|d s IH]; [done|]. simpl. by rewrite IH, orb_assoc.
Qed.

Lemma up_to_last_slash_fixed pre :
  up_to_last_slash (pre ++ "/")%string = (pre ++ "/")%string.
Proof.
  induction pre as [|c pre IH]; [done|].
  change (up_to_last_slash (String c (pre ++ "/")%string)
          = String c (pre ++ "/")%string).
  rewrite up_to_last_slash_cons, IH; [done|].
  rewrite contains_app. apply orb_true_r.
Qed.

(** X19.  [getPageURI] cuts the location after its last slash: the
    result is the location without the characters behind its last slash,
    so a location that ends in a slash is returned as it is; a location
    that holds a slash gives a result that ends in a slash; and one
    without any slash gives the empty string. *)
Theorem getPageURI_cuts_after_last_slash location :
  (∃ rest, location = (getPageURI location ++ rest)%string
     ∧ contains "/" rest = false)
  ∧ (contains "/" location = true →
     ∃ pre, getPageURI location = (pre ++ "/")%string)
  ∧ (contains "/" location = false → getPageURI location = "")
  ∧ ∀ pre, location = (pre ++ "/")%string → getPageURI location = location.
Proof.
  rewrite getPageURI_eq. split_and!.
  - apply up_to_last_slash_rest.
  - apply up_to_last_slash_ends.
  - apply up_to_last_slash_none.
  - intros pre ->. apply up_to_last_slash_fixed.
Qed.

(** X20.  [getPageURI] is idempotent: applied to its own result it
    returns that result. *)
Theorem getPageURI_idempotent location :
  getPageURI (getPageURI location) = getPageURI location.
Proof.
  rewrite !getPageURI_eq.
  destruct (contains "/" location) eqn:E.
  - destruct (up_to_last_slash_ends _ E) as [pre ->].
    apply up_to_last_slash_fixed.
  - by rewrite (up_to_last_slash_none _ E).
Qed.

(** the loop of formatInt *)

Lemma append_String c (s t : string) :
  (String c s ++ t)%string = String c (s ++ t)%string.
Proof. done. Qed.


Lemma length_zeros n : String.length (zeros n) = n.
Proof. induction n; simpl; congruence. Qed.

Lemma length_append (s t : string) :
  String.length (s ++ t)%string = String.length s + String.length t.
Proof.
  induction s as [|c s IH]; [done|].
  rewrite append_String. simpl. congruence.
Qed.

Lemma zeros_snoc n str :
  (zeros n ++ String "0" str)%string = (zeros (S n) ++ str)%string.
Proof.
  induction n as [|n IH]; [done|].
  change (String "0" (zeros n ++ String "0" str)%string
          = String "0" (zeros (S n) ++ str)%string).
  by rewrite IH.
Qed.

Lemma pad_loop_zeros fuel : ∀ str digits,
  (digits - Z.of_nat (String.length str) ≤ Z.of_nat fuel)%Z →
  pad_loop fuel str digits
  = Some (zeros (Z.to_nat (digits - Z.of_nat (String.length str)))
          ++ str)%string.
Proof.
  induction fuel as [|fuel IH]; intros str digits Hfuel; simpl.
  - destruct (Z.ltb_spec (Z.of_nat (String.length str)) digits); [lia|].
    by replace (Z.to_nat (digits - Z.of_nat (String.length str))) with 0
      by lia.
  - destruct (Z.ltb_spec (Z.of_nat (String.length str)) digits) as [Hlt|Hge].
    + change ("0" ++ str)%string with (String "0" str).
      rewrite IH by (simpl; lia). simpl String.length.
      replace (Z.to_nat (digits - Z.of_nat (String.length str)))
        with (S (Z.to_nat (digits - Z.of_nat (S (String.length str)))))
        by lia.
      by rewrite zeros_snoc.
    + by replace (Z.to_nat (digits - Z.of_nat (String.length str))) with 0
        by lia.
Qed.

Lemma formatInt_eq val digits minus zero plus :
  formatInt val digits minus zero plus
  = Some (getSignOf val minus zero plus
          ++ zeros (Z.to_nat (digits - Z.of_nat
                      (String.length (toString_integer (Z.abs val)))))
          ++ toString_integer (Z.abs val))%string.
Proof.
  unfold formatInt. rewrite pad_loop_zeros by lia. done.
Qed.

(** reading numerals *)












(** X21.  [formatInt] never cuts a number: its result is the sign, then
    as many zeros as the numeral of [|val|] lacks to [digits] characters,
    then that numeral; so the part behind the sign has [digits]
    characters, or as many as the numeral has when these are more.  The
    loop that adds the zeros always ends. *)
Theorem formatInt_pads val digits minus zero plus :
  (Z.abs val ≤ MAX_SAFE_INTEGER)%Z →
  let numeral := toString_integer (Z.abs val) in
  ∃ pad,
    formatInt val digits minus zero plus
    = Some (getSignOf val minus zero plus ++ pad ++ numeral)%string
    ∧ pad = zeros (String.length pad)
    ∧ Z.of_nat (String.length (pad ++ numeral)%string)
      = Z.max digits (Z.of_nat (String.length numeral)).
Proof.
  intros _ numeral. eexists. split; [apply formatInt_eq|].
  fold numeral. split.
  - by rewrite length_zeros.
  - rewrite length_append, length_zeros. lia.
Qed.


Lemma two_digits v :
  (0 ≤ v < 60)%Z →
  ∃ a b, formatInt v 2 "-" "" "" = Some (String a (String b ""))
    ∧ read_integer (String a (String b "")) = Some v.
Proof.
  intros Hv.
  assert (Hn : ∃ n, n < 60 ∧ v = Z.of_nat n)
    by (exists (Z.to_nat v); lia).
  destruct Hn as (n & Hn & ->). clear Hv.
  do 60 (destruct n as [|n]; [by eexists _, _|]). lia.
Qed.

(** X23.  For the hours and minutes of a clock, [formatTime] gives five
    characters: two digits, a colon, two digits; the first two read back
    as the hours and the last two as the minutes. *)
Theorem formatTime_five_characters hours minutes :
  (0 ≤ hours < 24)%Z → (0 ≤ minutes < 60)%Z →
  ∃ str,
    formatTime hours minutes = Some str
    ∧ String.length str = 5
    ∧ String.substring 2 1 str = ":"
    ∧ read_integer (String.substring 0 2 str) = Some hours
    ∧ read_integer (String.substring 3 2 str) = Some minutes.
Proof.
  intros Hh Hm.
  destruct (two_digits hours ltac:(lia)) as (a & b & Hfh & Hrh).
  destruct (two_digits minutes Hm) as (c & d & Hfm & Hrm).
  unfold formatTime. rewrite Hfh, Hfm. simpl.
  eexists. split_and!; done.
Qed.

End proofs.

(** * The examples, checked *)

Ltac by_compute := refine (bool_decide_unpack _ _); vm_compute; exact I.

Lemma example_table_made :
  new_TableMaker example_specs [] = Ok (example_table, example_store).
Proof. vm_compute. reflexivity. Qed.

Lemma get_requests_when_stale_witness :
  let c0 := new_CachedFile "GET" "data.json" 1000 in
  let r1 := get c0 false 1 (Fulfilled (VString "a")) 1 in
  let r2 :=
    get (snd r1) false (1 + 500) (Fulfilled (VString "b")) (1 + 500) in
  let r3 :=
    get (snd r2) false (1 + 1500) (Fulfilled (VString "c")) (1 + 1500) in
  fst r1 = (true, Fulfilled (VString "a"))
  ∧ fst r2 = (false, Fulfilled (VString "a"))
  ∧ fst r3 = (true, Fulfilled (VString "c")).
Proof.
  apply (proj2 (proj2 (proj2 (get_requests_when_stale (num := Z_number))))
           "GET" "data.json" 1%Z).
  reflexivity.
Defined.

(** At clock reading 0 a new cache does not request: of the calls at 0,
    500 and 1500 only the second does. *)
Lemma get_at_clock_zero_counterexample :
  let c0 := new_CachedFile (num := Z_number) "GET" "data.json" 1000 in
  let r1 := get c0 false 0 (Fulfilled (VString "a")) 0 in
  let r2 := get (snd r1) false 500 (Fulfilled (VString "b")) 500 in
  let r3 := get (snd r2) false 1500 (Fulfilled (VString "c")) 1500 in
  fst r1 = (false, Fulfilled VNull)
  ∧ fst r2 = (true, Fulfilled (VString "b"))
  ∧ fst r3 = (false, Fulfilled (VString "b")).
Proof. vm_compute. done. Qed.

Lemma appendRows_adds_rows_witness :
  ∃ s' trs,
    appendRows example_table example_rows example_store
    = Ok (example_table, s')
    ∧ childNodes_of s' 2
      = filter (λ c, c ∉ example_rows ≫= spliced_row example_headings) [] ++ trs
    ∧ length trs = 3
    ∧ Forall (λ tr, 8 ≤ tr) trs
    ∧ map (shape_of 8 2 s') trs = expected_rows example_headings example_rows
    ∧ Forall (λ sh, ∃ cells, sh = SElement "tr" [] cells
                ∧ length cells = 2
                ∧ Forall (λ c, ∃ cl content, c = SElement "td" cl content)
                         cells)
             (expected_rows example_headings example_rows)
    ∧ ∀ rows', Forall2 (λ row row', NoDup row.*1 ∧ row ≡ₚ row')
                       example_rows rows' →
               appendRows example_table rows' example_store
               = appendRows example_table example_rows example_store.
Proof.
  apply (appendRows_adds_rows example_table example_rows example_store
           (Node (ElementNode "tbody") [] []) [2; 0]).
  - by_compute.
  - reflexivity.
  - reflexivity.
  - reflexivity.
  - repeat constructor.
Defined.

Lemma example_rows_appended :
  appendRows example_table example_rows example_store
  = Ok (example_table, example_store_rows).
Proof. vm_compute. reflexivity. Qed.

Lemma appendRows_failures_counterexample :
  appendRows example_table [ [("t", VWrapper (tbody example_table))] ]
             example_store
  = Err HierarchyRequestError
  ∧ appendRows example_table
      [ [("t", VObject [("classes", VArray [VString "a b"]);
                        ("content", VString "x")])] ]
      example_store
    = Err InvalidCharacterError
  ∧ appendRows example_table
      [ [("t", VObject [("content", VObject [])])] ] example_store
    = Err TypeError
  ∧ appendRows example_table
      [ [("t", VString "09:00"); ("hasOwnProperty", VNumber 1%Z)] ]
      example_store
    = Err TypeError.
Proof. vm_compute. done. Qed.



Lemma object_values_are_decorated_witness :
  let this := example_table in
  let rows := example_rows_objects in
  let s := example_store in
  let row := [("t", VArray [VString "a"; VString "b"]);
              ("v", VObject [("classes", VArray [VString "hot"])])] in
  let h := Heading "v" 1 (Wrapper 6) (Wrapper 7) in
  let v := VObject [("classes", VArray [VString "hot"])] in
  is_decorated v = true
  ∧ (∀ cell st, fill_cell cell row h st = fill_decorated cell v st)
  ∧ ∃ s' trs tr td cl ch,
      appendRows this rows s = Ok (this, s')
      ∧ childNodes_of s' (element (tbody this))
        = filter (λ c, c ∉ rows ≫= spliced_row (headings this)) [] ++ trs
      ∧ trs !! 0 = Some tr
      ∧ childNodes_of s' tr !! 1 = Some td
      ∧ shape_of (length s) 1 s' td = SElement "td" cl ch
      ∧ cl = foldl add_token [] (tokens_of (cell_classes (Some v)))
      ∧ (truthy (get_property v "classes") = false → cl = [])
      ∧ ((∃ items, v = VArray items)
         ∨ (∃ props, v = VObject props
                     ∧ own_property "content" props = None) →
         ch = [SText ""])
      ∧ ((∃ items, v = VArray items) → cl = [] ∧ ch = [SText ""]).
Proof.
  apply (object_values_are_decorated example_table example_rows_objects
           example_store (Node (ElementNode "tbody") [] []) [2; 0] 0 1
           [("t", VArray [VString "a"; VString "b"]);
            ("v", VObject [("classes", VArray [VString "hot"])])]
           (Heading "v" 1 (Wrapper 6) (Wrapper 7))
           (VObject [("classes", VArray [VString "hot"])])).
  - by_compute.
  - reflexivity.
  - reflexivity.
  - reflexivity.
  - repeat constructor.
  - reflexivity.
  - reflexivity.
  - reflexivity.
  - right. eexists. reflexivity.
Defined.

(** A truthy [classes] that is not iterable, or holds a class with white
    space, makes [appendRows] throw, also when there is no content. *)
Lemma object_values_counterexample :
  appendRows example_table [ [("t", VObject [("classes", VNumber 5%Z)])] ]
             example_store
  = Err TypeError
  ∧ appendRows example_table
      [ [("t", VObject [("classes", VArray [VString "a b"])])] ]
      example_store
    = Err InvalidCharacterError.
Proof. vm_compute. done. Qed.

Lemma append_places_children_witness :
  let children := [VNull; VNumber (num := Z_number) 42%Z;
                   VWrapper (Wrapper 3); VString "x"; VString "x"] in
  let nodes := [8; 9; 3; 10; 11] in
  ∃ s',
    append (Wrapper 2) children example_store = Ok (Wrapper 2, s')
    ∧ Forall2 (resolved example_store s') children nodes
    ∧ length s' = 8 + 4
    ∧ childNodes_of s' 2 = foldl place [] nodes
    ∧ (NoDup nodes →
       childNodes_of s' 2 = filter (λ c, c ∉ nodes) [] ++ nodes)
    ∧ ∀ x n, example_store !! x = Some n → x ≠ 2 →
        s' !! x = Some (unmoved (children ≫= moved) n).
Proof.
  apply (append_places_children (num := Z_number) (Wrapper 2)
           [VNull; VNumber (num := Z_number) 42%Z; VWrapper (Wrapper 3);
            VString "x"; VString "x"]
           example_store (Node (ElementNode "tbody") [] []) [2; 0]).
  - by_compute.
  - reflexivity.
  - reflexivity.
  - reflexivity.
  - repeat constructor.
Defined.

(** An array or a plain object is no text for [append], and a wrapper
    cannot be appended to itself. *)
Lemma append_failures_counterexample :
  append (num := Z_number) (Wrapper 2) [VArray [VString "a"]] example_store
  = Err TypeError
  ∧ append (num := Z_number) (Wrapper 2) [VObject []] example_store
    = Err TypeError
  ∧ append (num := Z_number) (Wrapper 2) [VWrapper (Wrapper 2)] example_store
    = Err HierarchyRequestError.
Proof. vm_compute. done. Qed.

Lemma clear_removes_element_children_witness :
  ∃ s',
    clear (Wrapper 2) example_store_rows = Ok (Wrapper 2, s')
    ∧ childNodes_of s' 2
      = filter (λ c, is_element_at example_store_rows c ≠ true) [8; 13; 18]
    ∧ (∀ n', s' !! 2 = Some n' → children s' n' = [])
    ∧ (∀ x, x ≠ 2 → s' !! x = example_store_rows !! x)
    ∧ (children example_store_rows (Node (ElementNode "tbody") [] [8; 13; 18])
       = [] → s' = example_store_rows)
    ∧ ∀ c cs fuel,
        children example_store_rows (Node (ElementNode "tbody") [] [8; 13; 18])
        = c :: cs →
        clear_loop (S fuel) (Wrapper 2) example_store_rows
        = (removeChild 2 c ;; clear_loop fuel (Wrapper 2)) example_store_rows.
Proof.
  apply (clear_removes_element_children (Wrapper 2) example_store_rows
           (Node (ElementNode "tbody") [] [8; 13; 18])).
  - reflexivity.
  - reflexivity.
Defined.

(** The cell of the first row holds a text node; [clear()] leaves it. *)
Lemma clear_leaves_text_counterexample :
  clear (Wrapper 9) example_store_rows = Ok (Wrapper 9, example_store_rows)
  ∧ childNodes_of example_store_rows 9 = [10]
  ∧ example_store_rows !! 10 = Some (Node (TextNode "09:00") [] []).
Proof. vm_compute. done. Qed.




Lemma get_rejected_leaves_cache_witness :
  let c := Cached (num := Z_number) "GET" "data.json" 1000 1500 (VString "a") in
  get_resume c (Rejected (VString "offline")) 2000
  = (Rejected (VString "offline"), c)
  ∧ get c false 2000 (Rejected (VString "offline")) 2000
    = (true, Rejected (VString "offline"), c).
Proof.
  split.
  - apply (proj1 (get_rejected_leaves_cache
             (Cached (num := Z_number) "GET" "data.json" 1000 1500
                     (VString "a"))
             (VString "offline"))).
  - apply (proj2 (get_rejected_leaves_cache
             (Cached (num := Z_number) "GET" "data.json" 1000 1500
                     (VString "a"))
             (VString "offline"))).
    right. reflexivity.
Defined.

Lemma addClasses_returns_iff_witness :
  let this := Wrapper 21 in
  let classes := [VString "new"; VString "hot"; VNull; VString "new"] in
  let s := example_store_rows in
  let n := Node (ElementNode "td") ["hot"] [22] in
  ((∃ w s', addClasses this classes s = Ok (w, s'))
   ↔ Forall (λ cls, token_ok cls = true) classes)
  ∧ ∀ w s', addClasses this classes s = Ok (w, s') →
      let added := filter (λ t, t ∉ classList n)
                          (first_occurrences (tokens_of classes)) in
      w = this
      ∧ s' = <[element this := set_classList (classList n ++ added) n]> s
      ∧ classList_of s' (element this) = classList n ++ added
      ∧ NoDup added
      ∧ (∀ t, t ∈ added ↔ t ∈ tokens_of classes ∧ t ∉ classList n)
      ∧ (NoDup (classList n) → NoDup (classList_of s' (element this))).
Proof.
  apply (addClasses_returns_iff (Wrapper 21)
           [VString "new"; VString "hot"; VNull; VString "new"]
           example_store_rows (Node (ElementNode "td") ["hot"] [22])).
  - reflexivity.
  - reflexivity.
Defined.

Lemma rmClasses_removes_witness :
  let this := Wrapper 21 in
  let classes := [VString "cold"; VNull; VString "hot"] in
  let s := example_store_rows in
  let n := Node (ElementNode "td") ["hot"] [22] in
  ∃ s',
    rmClasses this classes s = Ok (this, s')
    ∧ classList_of s' (element this)
      = filter (λ t, t ∉ tokens_of classes) (classList n)
    ∧ s' = <[element this :=
               set_classList (classList_of s' (element this)) n]> s
    ∧ ((∀ t, t ∈ tokens_of classes → t ∉ classList n) → s' = s).
Proof.
  apply (rmClasses_removes (Wrapper 21)
           [VString "cold"; VNull; VString "hot"] example_store_rows
           (Node (ElementNode "td") ["hot"] [22])).
  - reflexivity.
  - reflexivity.
  - by_compute.
Defined.

Lemma rmClasses_undoes_addClasses_witness :
  let this := Wrapper 21 in
  let classes := [VString "a"; VNull; VString "b"] in
  let s := example_store_rows in
  ∃ s',
    (addClasses this classes ;; rmClasses this classes) s = Ok (this, s')
    ∧ classList_of s' (element this) = ["hot"]
    ∧ (∀ x, classList_of s' x = classList_of s x)
    ∧ (∀ x, childNodes_of s' x = childNodes_of s x)
    ∧ ∀ x, kind <$> s' !! x = kind <$> s !! x.
Proof.
  apply (rmClasses_undoes_addClasses (Wrapper 21)
           [VString "a"; VNull; VString "b"] example_store_rows
           (Node (ElementNode "td") ["hot"] [22])).
  - reflexivity.
  - reflexivity.
  - by_compute.
  - apply Forall_forall. by_compute.
Defined.

Lemma addClasses_on_text_node_witness :
  addClasses (Wrapper 4) [VNull; VString ""] example_store
  = Ok (Wrapper 4, example_store)
  ∧ addClasses (Wrapper 4) [VNull; VString "a"] example_store
    = Err TypeError.
Proof.
  split.
  - apply (addClasses_on_text_node (Wrapper 4) [VNull; VString ""]
             example_store); [reflexivity|].
    by repeat constructor.
  - apply (addClasses_on_text_node (Wrapper 4) [VNull; VString "a"]
             example_store); [reflexivity|].
    apply Exists_cons_tl, Exists_cons_hd. reflexivity.
Defined.

Lemma append_single_parent_witness :
  ∃ s',
    append (Wrapper 2) [VWrapper (Wrapper 5)] example_store
    = Ok (Wrapper 2, s')
    ∧ ∃ c cs,
        c = 5
        ∧ childNodes_of s' 2 = cs ++ [c]
        ∧ (c ∉ cs)
        ∧ ∀ x n, s' !! x = Some n → c ∈ childNodes n → x = 2.
Proof.
  eexists. split.
  - reflexivity.
  - apply (append_single_parent (Wrapper 2) (VWrapper (Wrapper 5))
             example_store (Wrapper 2)).
    reflexivity.
Defined.



Lemma new_TableMaker_index_last_witness :
  ∃ this s',
    new_TableMaker example_specs_twice [] = Ok (this, s')
    ∧ headings_by_name this !! "t"
      = last (filter (λ h, name h = "t") (headings this))
    ∧ headings_by_name this !! "t"
      = Some (Heading "t" 1 (Wrapper 6) (Wrapper 7))
    ∧ name <$> headings this = ["t"; "t"].
Proof.
  eexists _, _. split; [reflexivity|].
  destruct (new_TableMaker_index_last example_specs_twice [] _ _ "t"
              ltac:(by_compute) eq_refl ltac:(discriminate))
    as [Hlast Hnames].
  split; [exact Hlast|]. split; [|exact Hnames].
  rewrite Hlast. reflexivity.
Defined.

Lemma appendRows_reads_headings_only_witness :
  appendRows example_table example_rows_more example_store
  = appendRows example_table example_rows example_store.
Proof.
  apply (appendRows_reads_headings_only example_table example_rows
           example_rows_more example_store).
  repeat constructor; try reflexivity; intros h Hh;
    repeat (apply elem_of_cons in Hh as [->|Hh]; [reflexivity|]);
    by apply elem_of_nil in Hh.
Defined.

Lemma appendRows_only_adds_witness :
  let this := example_table in
  let rows := example_rows in
  let s := example_store in
  let bn := Node (ElementNode "tbody") [] [] in
  ∃ s' trs,
    appendRows this rows s = Ok (this, s')
    ∧ (∀ x n, s !! x = Some n → x ≠ element (tbody this) →
         s' !! x
         = Some (unmoved (rows ≫= spliced_row (headings this)) n))
    ∧ (rows ≫= spliced_row (headings this) = [] →
       (∀ x n, s !! x = Some n → x ≠ element (tbody this) →
          s' !! x = Some n)
       ∧ childNodes_of s' (element (tbody this)) = childNodes bn ++ trs
       ∧ length trs = length rows
       ∧ Forall (λ tr, length s ≤ tr) trs).
Proof.
  apply (appendRows_only_adds example_table example_rows example_store
           (Node (ElementNode "tbody") [] []) [2; 0]).
  - by_compute.
  - reflexivity.
  - reflexivity.
  - reflexivity.
  - repeat constructor.
Defined.

Lemma get_no_single_flight_witness :
  let this := new_CachedFile "GET" "data.json" 1000 in
  let d1 := VString "first" in
  let d2 := VString "second" in
  get_begin this false 5 = Await_requestJSON "GET" "data.json"
  ∧ get_begin this false 6 = Await_requestJSON "GET" "data.json"
  ∧ let r1 := get_resume this (Fulfilled d1) 10 in
    let r2 := get_resume (snd r1) (Fulfilled d2) 8 in
    fst r1 = Fulfilled d1 ∧ fst r2 = Fulfilled d2
    ∧ _data (snd r2) = d2
    ∧ _expiry (snd r2) = (8 + 1000)%Z.
Proof.
  apply (get_no_single_flight (new_CachedFile "GET" "data.json" 1000)
           5 6 (VString "first") (VString "second") 10 8).
  - simpl. lia.
  - lia.
Defined.


Lemma getPageURI_cuts_after_last_slash_witness :
  getPageURI "http://host/dir/page.html" = "http://host/dir/"
  ∧ ∃ rest,
      "http://host/dir/page.html"
      = (getPageURI "http://host/dir/page.html" ++ rest)%string
      ∧ contains "/" rest = false.
Proof.
  split; [reflexivity|].
  apply (getPageURI_cuts_after_last_slash "http://host/dir/page.html").
Defined.

Lemma formatInt_pads_witness :
  ∃ pad,
    formatInt (-5) 3 "-" "" "+" = Some ("-" ++ pad ++ "5")%string
    ∧ pad = zeros (String.length pad)
    ∧ Z.of_nat (String.length (pad ++ "5")%string) = 3%Z.
Proof.
  apply (formatInt_pads (-5) 3 "-" "" "+").
  unfold MAX_SAFE_INTEGER. simpl. lia.
Defined.


Lemma formatTime_five_characters_witness :
  ∃ str,
    formatTime 9 5 = Some str
    ∧ String.length str = 5
    ∧ String.substring 2 1 str = ":"
    ∧ read_integer (String.substring 0 2 str) = Some 9%Z
    ∧ read_integer (String.substring 3 2 str) = Some 5%Z.
Proof.
  apply (formatTime_five_characters 9 5); lia.
Defined.
